(** * GAMSorter: sorting a stream of alignments by minimum graph position

    A shallow embedding of [src/gamsorter.cpp] (vg) and the properties of
    its sorter.

    Definitions, in the order of the source:
    - the protobuf value types the sorter reads ([Position], [Mapping],
      [Path], [Alignment]);
    - the ordering model ([less_than], [greater_than], [equal_to],
      [get_min_position]);
    - the standard-library algorithms the sorter calls ([std::sort],
      [std::push_heap], [std::pop_heap]) as an interface with the contract
      the C++ standard gives them, and [std::priority_queue] as the
      container adaptor over them;
    - the stream helpers ([stream::for_each], [stream::write_buffered],
      [stream::ProtobufIterator]) and the temporary file store;
    - [GAMSorter::sort], [GAMSorter::dumb_sort], [GAMSorter::stream_sort],
      the latter as its two phases: run production and k-way merge;
    - a reference implementation of the interface, on which the sorter runs.

    Facts and theorems follow: the ordering model, the two phases and their
    invariants, the pipeline as a whole. *)

From Stdlib Require Import NArith Lia Sorted Permutation.
From stdpp Require Import base relations list sorting strings.

Set Default Proof Using "Type".

(** ** Data model *)

(** Modelled from the spec: the protobuf messages of [vg.proto] are not
    under [src/]; the spec gives a Position an unsigned identifier, a boolean
    orientation and an unsigned offset.  The accessors keep the generated
    C++ names. *)
Record Position : Type := mkPosition
  { node_id : N;
    is_reverse : bool;
    offset : N }.

(** [Position()]: the default-constructed message, every field zero. *)
Definition Position_default : Position :=
  {| node_id := 0%N; is_reverse := false; offset := 0%N |}.

(** Modelled from the spec: a Mapping (segment) has exactly one anchor
    Position. *)
Record Mapping : Type := mkMapping
  { position : Position }.

(** A Path is its repeated [mapping] field; [mapping_size] is its length. *)
Record Path : Type := mkPath
  { mapping : list Mapping }.

Definition mapping_size (p : Path) : nat := length (mapping p).

(** An Alignment carries its [path]; [name] and [sequence] stand for the
    payload the sorter never inspects but must carry through unchanged. *)
Record Alignment : Type := mkAlignment
  { path : Path;
    name : string;
    sequence : string }.

(** ** Ordering model *)

Module GAMSorter.

(** C++ [<] on two [bool]s: both are promoted to [int], so [false < true]
    only. *)
Definition bool_lt (x y : bool) : bool := negb x && y.

(** [GAMSorter::less_than(const Position&, const Position&)]. *)
Definition less_than (a b : Position) : bool :=
  if (node_id a <? node_id b)%N then true
  else if (node_id b <? node_id a)%N then false
  else if bool_lt (is_reverse a) (is_reverse b) then true
  else if bool_lt (is_reverse b) (is_reverse a) then false
  else if (offset a <? offset b)%N then true
  else false.

(** [GAMSorter::greater_than(const Position&, const Position&)]. *)
Definition greater_than (a b : Position) : bool :=
  if (node_id b <? node_id a)%N then true
  else if (node_id a <? node_id b)%N then false
  else if bool_lt (is_reverse b) (is_reverse a) then true
  else if bool_lt (is_reverse a) (is_reverse b) then false
  else if (offset b <? offset a)%N then true
  else false.

(** [GAMSorter::equal_to]. *)
Definition equal_to (a b : Position) : bool :=
  (node_id a =? node_id b)%N
  && Bool.eqb (is_reverse a) (is_reverse b)
  && (offset a =? offset b)%N.

(** [GAMSorter::get_min_position(const Path&)]: the loop runs over the
    mappings from index 1, keeping the smaller of [min] and [other]. *)
Definition min_step (min : Position) (m : Mapping) : Position :=
  let other := position m in
  if less_than other min then other else min.

Definition get_min_position (p : Path) : Position :=
  match mapping p with
  | [] => Position_default
  | m0 :: rest => fold_left min_step rest (position m0)
  end.

(** [GAMSorter::get_min_position(const Alignment&)]. *)
Definition get_min_position_aln (aln : Alignment) : Position :=
  get_min_position (path aln).

(** [GAMSorter::less_than(const Alignment&, const Alignment&)]. *)
Definition less_than_aln (a b : Alignment) : bool :=
  less_than (get_min_position_aln a) (get_min_position_aln b).

End GAMSorter.

Import GAMSorter.

(** ** Strict weak orderings

    The requirement the C++ standard puts on every [Compare] argument. *)

Record strict_weak_order {A : Type} (comp : A → A → bool) : Prop :=
  { swo_irrefl : ∀ a, comp a a = false;
    swo_trans : ∀ a b c, comp a b = true → comp b c = true → comp a c = true;
    swo_incomp_trans : ∀ a b c,
      comp a b = false → comp b a = false →
      comp b c = false → comp c b = false →
      comp a c = false ∧ comp c a = false }.

(** Two values are equivalent under [comp] when neither precedes the other. *)
Definition equiv_under {A : Type} (comp : A → A → bool) (a b : A) : Prop :=
  comp a b = false ∧ comp b a = false.

(** The comparison as one proposition, the form the proofs work with. *)
Definition lex_lt (a b : Position) : Prop :=
  (node_id a < node_id b)%N
  ∨ (node_id a = node_id b
     ∧ ((is_reverse a = false ∧ is_reverse b = true)
        ∨ (is_reverse a = is_reverse b ∧ (offset a < offset b)%N))).


(** ** The standard-library algorithms the sorter calls

    [std::sort], [std::push_heap] and [std::pop_heap] belong to the C++
    standard library, not to the repository.  They are taken as an interface
    carrying the contract the standard states for them; every theorem about
    the sorter holds for each implementation that meets it. *)

(** The post-condition of [std::sort]: no later element is less than an
    earlier one. *)
Definition sorted_by {A : Type} (comp : A → A → bool) (l : list A) : Prop :=
  StronglySorted (λ a b, comp b a = false) l.

(** The standard's heap property on a random-access range: no parent is less
    than its child, the parent of index [i] being [(i - 1) / 2]. *)
Definition is_heap {A : Type} (comp : A → A → bool) (c : list A) : Prop :=
  ∀ i x y, 0 < i → c !! ((i - 1) / 2) = Some x → c !! i = Some y →
    comp x y = false.

Class StdAlgorithms : Type :=
  { std_sort : ∀ {A : Type}, (A → A → bool) → list A → list A;
    std_push_heap : ∀ {A : Type}, (A → A → bool) → list A → list A;
    std_pop_heap : ∀ {A : Type}, (A → A → bool) → list A → list A;
    (** [std::sort] permutes the range and leaves it sorted. *)
    std_sort_permutation : ∀ {A : Type} (comp : A → A → bool) l,
      strict_weak_order comp → std_sort comp l ≡ₚ l;
    std_sort_sorted : ∀ {A : Type} (comp : A → A → bool) l,
      strict_weak_order comp → sorted_by comp (std_sort comp l);
    (** [std::push_heap]: the range without its last element is a heap; the
        whole range is permuted into a heap. *)
    std_push_heap_permutation : ∀ {A : Type} (comp : A → A → bool) c x,
      strict_weak_order comp → is_heap comp c →
      std_push_heap comp (c ++ [x]) ≡ₚ c ++ [x];
    std_push_heap_is_heap : ∀ {A : Type} (comp : A → A → bool) c x,
      strict_weak_order comp → is_heap comp c →
      is_heap comp (std_push_heap comp (c ++ [x]));
    (** [std::pop_heap]: the non-empty range is a heap; its first element is
        moved to the last place and the rest is permuted into a heap. *)
    std_pop_heap_spec : ∀ {A : Type} (comp : A → A → bool) x c,
      strict_weak_order comp → is_heap comp (x :: c) →
      ∃ c', std_pop_heap comp (x :: c) = c' ++ [x] ∧ c' ≡ₚ c ∧ is_heap comp c' }.

(** [std::priority_queue<T, vector<T>, Compare>]: the adaptor the standard
    defines over the container [c].  The comparator of [temp_files] is a
    closure that reads the cursors through the pointers it is handed, so the
    model passes it at every call, built from the cursors as they are then. *)
Module priority_queue.
Section adaptor.
Context {alg : StdAlgorithms} {T : Type}.

(** [push(x)]: [c.push_back(x); push_heap(c.begin(), c.end(), comp)]. *)
Definition push (comp : T → T → bool) (x : T) (c : list T) : list T :=
  std_push_heap comp (c ++ [x]).

(** [pop()]: [pop_heap(c.begin(), c.end(), comp); c.pop_back()]. *)
Definition pop (comp : T → T → bool) (c : list T) : list T :=
  removelast (std_pop_heap comp c).

(** [top()]: [c.front()], read only after [empty()] was false. *)
Definition top (c : list T) : option T := head c.

(** [empty()]. *)
Definition empty (c : list T) : bool :=
  match c with [] => true | _ :: _ => false end.

End adaptor.
End priority_queue.

(** ** Streams, cursors and temporary files *)

Module stream.

(** Modelled from the spec: [stream::for_each] of [stream.hpp] is not under
    [src/]; it hands every record of the input stream, in stream order, to
    the callback.  The callback's captured variables are the state [S]. *)
Definition for_each {S : Type} (gam_in : list Alignment)
    (lambda : S → Alignment → S) (s : S) : S :=
  fold_left lambda gam_in s.

(** Modelled from the spec: [stream::write_buffered] of [stream.hpp] is not
    under [src/]; when the buffer holds at least [buffer_limit] records it
    writes the whole buffer to the stream and clears it.  The result is the
    stream and the buffer afterwards. *)
Definition write_buffered (out buffer : list Alignment) (buffer_limit : nat)
    : list Alignment * list Alignment :=
  if buffer_limit <=? length buffer then (out ++ buffer, []) else (out, buffer).

(** Modelled from the spec: [stream::ProtobufIterator] of [stream.hpp] is not
    under [src/]; a forward-only cursor over one run, here the records it has
    not passed yet, the current one first. *)
Abbreviation cursor_t := (list Alignment).

Definition has_next (c : cursor_t) : bool :=
  match c with [] => false | _ :: _ => true end.

(** [operator*]: the current record, when there is one. *)
Definition deref (c : cursor_t) : option Alignment := head c.

Definition get_next (c : cursor_t) : cursor_t := tail c.

End stream.

Module temp_file.

(** Modelled from the spec: [temp_file::create] of [utility.hpp] is not under
    [src/]; it creates a uniquely named file.  The temporary store is the
    list of the files' contents and a file's name is its index there. *)
Definition create (store : list (list Alignment)) : nat * list (list Alignment) :=
  (length store, store ++ [[]]).

(** What an [ifstream] opened on [name] will yield. *)
Definition open (store : list (list Alignment)) (name : nat) : list Alignment :=
  default [] (store !! name).

End temp_file.

(** ** The sorter *)

Section sorter.
Context {alg : StdAlgorithms}.

(** [GAMSorter::sort]. *)
Definition sort (alns : list Alignment) : list Alignment :=
  std_sort less_than_aln alns.

(** The two output loops share the pattern "push one record, then
    [write_buffered] with limit 1000"; the state is the output stream and
    the buffer. *)
Definition emit (st : list Alignment * list Alignment) (aln : Alignment)
    : list Alignment * list Alignment :=
  stream.write_buffered (fst st) (snd st ++ [aln]) 1000.

(** [GAMSorter::dumb_sort]: the records written to [gam_out]. *)
Definition dumb_sort (gam_in : list Alignment) : list Alignment :=
  let sort_buffer := stream.for_each gam_in (λ buf aln, buf ++ [aln]) [] in
  let sort_buffer := sort sort_buffer in
  let '(gam_out, out_buffer) := fold_left emit sort_buffer ([], []) in
  fst (stream.write_buffered gam_out out_buffer 0).

(** *** Run production (lines 42-73) *)

(** The variables the two lambdas of the first phase capture. *)
Record producer_state : Type := mkProducer
  { input_buffer : list Alignment;
    temp_file_names : list nat;
    temp_store : list (list Alignment) }.

Definition producer_init : producer_state :=
  {| input_buffer := []; temp_file_names := []; temp_store := [] |}.

(** The lambda [finish_buffer]: sort the buffer, create a temporary file,
    remember its name, write the buffer to it as one group, clear the
    buffer. *)
Definition finish_buffer (st : producer_state) : producer_state :=
  let sorted := sort (input_buffer st) in
  let '(temp_name, store) := temp_file.create (temp_store st) in
  let names := temp_file_names st ++ [temp_name] in
  let '(temp_stream, cleared) := stream.write_buffered [] sorted 0 in
  {| input_buffer := [];
     temp_file_names := names;
     temp_store := <[temp_name := temp_stream]> store |}.

(** The callback of [stream::for_each]: buffer the record and finish the
    buffer when it holds exactly [max_buf_size] records. *)
Definition buffer_alignment (max_buf_size : nat) (st : producer_state)
    (aln : Alignment) : producer_state :=
  let st' := {| input_buffer := input_buffer st ++ [aln];
                temp_file_names := temp_file_names st;
                temp_store := temp_store st |} in
  if length (input_buffer st') =? max_buf_size then finish_buffer st' else st'.

(** The first phase: the loop over the input, then the unconditional
    [finish_buffer()] of line 73. *)
Definition produce_runs (max_buf_size : nat) (gam_in : list Alignment)
    : producer_state :=
  finish_buffer
    (stream.for_each gam_in (buffer_alignment max_buf_size) producer_init).

(** *** Merge (lines 76-143) *)

(** A [cursor_t*] is the index of the cursor in [temp_cursors] (a
    [std::list], whose elements never move).  An index past the end stands
    for no cursor and reads as an exhausted one. *)
Definition cursor_at (temp_cursors : list stream.cursor_t) (p : nat)
    : stream.cursor_t :=
  default [] (temp_cursors !! p).

(** The lambda [cursor_order], reading the cursors as they are at the call. *)
Definition cursor_order (temp_cursors : list stream.cursor_t) (a b : nat)
    : bool :=
  if stream.has_next (cursor_at temp_cursors b) then
    if negb (stream.has_next (cursor_at temp_cursors a)) then true
    else
      match stream.deref (cursor_at temp_cursors b),
            stream.deref (cursor_at temp_cursors a) with
      | Some rb, Some ra => less_than_aln rb ra
      | _, _ => false
      end
  else false.

(** The variables of the merge phase. [temp_files] is the container of the
    priority queue. *)
Record merge_state : Type := mkMerge
  { temp_cursors : list stream.cursor_t;
    temp_files : list nat;
    output_buffer : list Alignment;
    gam_out : list Alignment }.

(** One turn of the loop over [temp_file_names] (lines 100-114): open the
    file, make a cursor for it, push the cursor's address. *)
Definition open_temp_file (store : list (list Alignment))
    (st : list stream.cursor_t * list nat) (name : nat)
    : list stream.cursor_t * list nat :=
  let cursors := fst st ++ [temp_file.open store name] in
  let back := length cursors - 1 in
  (cursors, priority_queue.push (cursor_order cursors) back (snd st)).

Definition merge_init (p : producer_state) : merge_state :=
  let '(cursors, queue) :=
    fold_left (open_temp_file (temp_store p)) (temp_file_names p) ([], []) in
  {| temp_cursors := cursors; temp_files := queue;
     output_buffer := []; gam_out := [] |}.

(** The guard of the [while] loop: the queue is not empty and its top cursor
    has a record.  It yields the winner. *)
Definition merge_guard (st : merge_state) : option nat :=
  if priority_queue.empty (temp_files st) then None
  else
    match priority_queue.top (temp_files st) with
    | Some winner =>
        if stream.has_next (cursor_at (temp_cursors st) winner)
        then Some winner else None
    | None => None
    end.

(** The body of the [while] loop (lines 122-139) for the winner. *)
Definition merge_body (st : merge_state) (winner : nat) : option merge_state :=
  let queue := priority_queue.pop (cursor_order (temp_cursors st)) (temp_files st) in
  match stream.deref (cursor_at (temp_cursors st) winner) with
  | Some aln =>
      let '(out, buffer) :=
        stream.write_buffered (gam_out st) (output_buffer st ++ [aln]) 1000 in
      let cursors :=
        <[winner := stream.get_next (cursor_at (temp_cursors st) winner)]>
          (temp_cursors st) in
      let queue :=
        if stream.has_next (cursor_at cursors winner)
        then priority_queue.push (cursor_order cursors) winner queue
        else queue in
      Some {| temp_cursors := cursors; temp_files := queue;
              output_buffer := buffer; gam_out := out |}
  | None => None
  end.

(** One iteration: [None] when the guard ends the loop. *)
Definition merge_step (st : merge_state) : option merge_state :=
  match merge_guard st with
  | Some winner => merge_body st winner
  | None => None
  end.

(** The [while] loop, run for at most [fuel] iterations; [None] means the
    fuel ran out before the guard failed. *)
Fixpoint merge_loop (fuel : nat) (st : merge_state) : option merge_state :=
  match merge_step st with
  | None => Some st
  | Some st' =>
      match fuel with
      | 0 => None
      | S fuel' => merge_loop fuel' st'
      end
  end.

(** Every iteration passes one record, so the records left in the cursors
    bound the iterations. *)
Definition records_left (st : merge_state) : nat :=
  length (concat (temp_cursors st)).

(** The records written so far, flushed or still buffered. *)
Definition emitted (st : merge_state) : list Alignment :=
  gam_out st ++ output_buffer st.

(** The second phase as a whole, with the final forced flush of line 143. *)
Definition merge_runs (p : producer_state) : option (list Alignment) :=
  let st := merge_init p in
  match merge_loop (records_left st) st with
  | Some st' =>
      Some (fst (stream.write_buffered (gam_out st') (output_buffer st') 0))
  | None => None
  end.

(** [GAMSorter::stream_sort]: the records written to [gam_out], or [None]
    if the merge loop did not end. *)
Definition stream_sort (max_buf_size : nat) (gam_in : list Alignment)
    : option (list Alignment) :=
  merge_runs (produce_runs max_buf_size gam_in).

End sorter.

(** ** A reference implementation of the algorithms

    The contract is inhabited: a merge sort for [std::sort], and for the heap
    operations the simplest arrangement that is a heap, the range sorted
    from greatest to least. *)

Module reference.

Definition sort_asc {A : Type} (comp : A → A → bool) (l : list A) : list A :=
  merge_sort (H := λ a b, bool_eq_dec (comp b a) false)
    (λ a b, comp b a = false) l.

Definition sort_desc {A : Type} (comp : A → A → bool) (l : list A) : list A :=
  merge_sort (H := λ a b, bool_eq_dec (comp a b) false)
    (λ a b, comp a b = false) l.

Definition pop_heap {A : Type} (comp : A → A → bool) (c : list A) : list A :=
  match c with
  | [] => []
  | x :: c' => sort_desc comp c' ++ [x]
  end.

End reference.

(** ** Properties and invariants

    The predicates the theorems are stated with. *)

Definition ceil_div (n b : nat) : nat := (n + b - 1) / b.

(** What holds of the captured variables after any prefix of the input:
    the files are named by their index, each file is sorted, and files plus
    buffer hold the records read so far. *)
Record producer_inv (consumed : list Alignment) (st : producer_state) : Prop :=
  { pinv_names : temp_file_names st = seq 0 (length (temp_store st));
    pinv_sorted : Forall (sorted_by less_than_aln) (temp_store st);
    pinv_records : concat (temp_store st) ++ input_buffer st ≡ₚ consumed }.

(** The invariant of the merge loop, for the records [all] of the runs. *)
Record merge_inv (all : list Alignment) (st : merge_state) : Prop :=
  { minv_heap : is_heap (cursor_order (temp_cursors st)) (temp_files st);
    minv_nodup : NoDup (temp_files st);
    minv_live : ∀ p, stream.has_next (cursor_at (temp_cursors st) p) = true →
                     p ∈ temp_files st;
    minv_runs : Forall (sorted_by less_than_aln) (temp_cursors st);
    minv_sorted : sorted_by less_than_aln (emitted st);
    minv_bound : ∀ e r, e ∈ emitted st → r ∈ concat (temp_cursors st) →
                        less_than_aln r e = false;
    minv_records : emitted st ++ concat (temp_cursors st) ≡ₚ all }.

Section merge_properties.
Context {alg : StdAlgorithms}.

(** [st'] is the state after some number of iterations from [st]. *)
Definition merge_reaches (st st' : merge_state) : Prop :=
  rtc (λ s s', merge_step s = Some s') st st'.

(** What the claim of a frontier without exhausted cursors would ask. *)
Definition frontier_all_live (st : merge_state) : Prop :=
  ∀ p, p ∈ temp_files st →
       stream.has_next (cursor_at (temp_cursors st) p) = true.

(** What the code keeps instead: an exhausted cursor in the frontier is one
    that was opened on an empty run. *)
Definition frontier_live_or_empty_run (runs : list (list Alignment))
    (st : merge_state) : Prop :=
  ∀ p, p ∈ temp_files st →
       stream.has_next (cursor_at (temp_cursors st) p) = false →
       runs !! p = Some [].

(** And the other way round: the cursor over an empty run is in the frontier,
    without a record. *)
Definition empty_runs_stay (runs : list (list Alignment))
    (st : merge_state) : Prop :=
  ∀ p, runs !! p = Some [] →
       p ∈ temp_files st
       ∧ stream.has_next (cursor_at (temp_cursors st) p) = false.

(** An iteration from [st] to [st']: the front of the queue wins, it has a
    current record, exactly that record is written, and a winner left
    without a record is out of the queue. *)
Definition winner_emits (st st' : merge_state) : Prop :=
  ∃ winner aln,
    priority_queue.top (temp_files st) = Some winner
    ∧ stream.has_next (cursor_at (temp_cursors st) winner) = true
    ∧ stream.deref (cursor_at (temp_cursors st) winner) = Some aln
    ∧ emitted st' = emitted st ++ [aln]
    ∧ (stream.has_next (cursor_at (temp_cursors st') winner) = false →
       winner ∉ temp_files st').

End merge_properties.

(** ** Sample records *)

Definition aligned (id : N) (rev : bool) (off : N) (nm : string) : Alignment :=
  {| path := {| mapping := [ {| position := mkPosition id rev off |} ] |};
     name := nm; sequence := "" |}.

Definition unaligned (nm : string) : Alignment :=
  {| path := {| mapping := [] |}; name := nm; sequence := "" |}.

Definition five_records : list Alignment :=
  [ aligned 5 false 10 "a"; aligned 3 true 2 "b"; aligned 5 false 1 "c";
    aligned 9 false 0 "d"; aligned 1 true 7 "e" ].

(** The names of the records a run of the sorter wrote, in order. *)
Definition names_of (out : option (list Alignment)) : option (list string) :=
  fmap (M := option) (fmap (M := list) name) out.

(** * Facts *)

(** ** Strict weak orderings: facts *)

Section swo_facts.
Context {A : Type} (comp : A → A → bool) (Hswo : strict_weak_order comp).

Lemma swo_asym a b : comp a b = true → comp b a = false.
Proof using Hswo.
  intros Hab. destruct (comp b a) eqn:Hba; [|done].
  pose proof (swo_trans _ Hswo _ _ _ Hab Hba) as Haa.
  by rewrite (swo_irrefl _ Hswo) in Haa.
Qed.

(** Negative transitivity: "not less" composes. *)
Lemma swo_neg_trans a b c :
  comp a b = false → comp b c = false → comp a c = false.
Proof using Hswo.
  intros Hab Hbc. destruct (comp a c) eqn:Hac; [|done]. exfalso.
  destruct (comp b a) eqn:Hba.
  { pose proof (swo_trans _ Hswo _ _ _ Hba Hac). congruence. }
  destruct (comp c b) eqn:Hcb.
  { pose proof (swo_trans _ Hswo _ _ _ Hac Hcb). congruence. }
  destruct (swo_incomp_trans _ Hswo _ _ _ Hab Hba Hbc Hcb). congruence.
Qed.

(** Pulling a strict weak ordering back along a key function. *)
Lemma swo_preimage {B : Type} (f : B → A) :
  strict_weak_order (λ x y, comp (f x) (f y)).
Proof using Hswo.
  split.
  - intros x. apply (swo_irrefl _ Hswo).
  - intros x y z. apply (swo_trans _ Hswo).
  - intros x y z. apply (swo_incomp_trans _ Hswo).
Qed.
End swo_facts.

(** ** Facts about the position order *)

Lemma bool_lt_spec x y : bool_lt x y = true ↔ x = false ∧ y = true.
Proof. destruct x, y; simpl; split; try done; intros [??]; done. Qed.

Lemma less_than_lex a b : less_than a b = true ↔ lex_lt a b.
Proof.
  unfold less_than, lex_lt, bool_lt.
  destruct a as [ia ra oa], b as [ib rb ob]; simpl.
  destruct (N.ltb_spec ia ib), (N.ltb_spec ib ia),
    ra, rb, (N.ltb_spec oa ob); simpl; split; intros; try done; try lia;
    intuition (try congruence; try lia).
Qed.

Lemma less_than_false a b : less_than a b = false ↔ ¬ lex_lt a b.
Proof.
  rewrite <- less_than_lex. destruct (less_than a b); intuition congruence.
Qed.

Lemma less_than_irrefl a : less_than a a = false.
Proof. apply less_than_false. unfold lex_lt. intros H. intuition (try congruence; lia). Qed.

Lemma less_than_trans a b c :
  less_than a b = true → less_than b c = true → less_than a c = true.
Proof.
  rewrite !less_than_lex. unfold lex_lt.
  destruct a as [ia ra oa], b as [ib rb ob], c as [ic rc oc]; simpl.
  destruct ra, rb, rc; intros; intuition (try congruence; try lia).
Qed.

(** Positions that the order cannot tell apart are the same position. *)
Lemma less_than_antisym a b :
  less_than a b = false → less_than b a = false → a = b.
Proof.
  rewrite !less_than_false. unfold lex_lt.
  destruct a as [ia ra oa], b as [ib rb ob]; simpl. intros Hab Hba.
  assert (ia = ib) by lia. subst.
  assert (ra = rb) by (destruct ra, rb; intuition congruence). subst.
  assert (oa = ob) by (destruct (N.lt_trichotomy oa ob) as [?|[?|?]]; [exfalso|done|exfalso]; intuition lia).
  by subst.
Qed.

Lemma less_than_swo : strict_weak_order less_than.
Proof.
  split.
  - apply less_than_irrefl.
  - apply less_than_trans.
  - intros a b c Hab Hba Hbc Hcb.
    rewrite (less_than_antisym _ _ Hab Hba), (less_than_antisym _ _ Hbc Hcb).
    split; apply less_than_irrefl.
Qed.

Lemma less_than_aln_swo : strict_weak_order less_than_aln.
Proof. apply (swo_preimage less_than less_than_swo get_min_position_aln). Qed.

(** ** Facts about sorted ranges *)

Lemma StronglySorted_lookup {A : Type} (R : A → A → Prop) (l : list A) i j x y :
  StronglySorted R l → i < j → l !! i = Some x → l !! j = Some y → R x y.
Proof.
  intros Hs. revert i j. induction Hs as [|a l Hs IH Hall]; intros i j Hlt Hx Hy.
  { by rewrite lookup_nil in Hy. }
  destruct j as [|j]; [lia|]. destruct i as [|i]; simpl in *.
  - injection Hx as ->. rewrite Forall_forall in Hall.
    apply Hall. by eapply list_elem_of_lookup_2.
  - eapply (IH i j); [lia|done..].
Qed.

(** ** Facts about heaps *)

Section heap_facts.
Context {A : Type} (comp : A → A → bool).

Lemma is_heap_nil : is_heap comp [].
Proof. intros i x y _ Hx. by rewrite lookup_nil in Hx. Qed.

(** The heap property only reads [comp] on the elements of the range. *)
Lemma is_heap_ext (comp' : A → A → bool) c :
  (∀ x y, x ∈ c → y ∈ c → comp' x y = comp x y) →
  is_heap comp c → is_heap comp' c.
Proof.
  intros Hext Hheap i x y Hi Hx Hy.
  rewrite Hext; [by eapply Hheap| |]; eapply list_elem_of_lookup_2; eauto.
Qed.

(** The first element of a heap is a greatest one. *)
Lemma is_heap_root_max c r :
  strict_weak_order comp → is_heap comp c → head c = Some r →
  ∀ y, y ∈ c → comp r y = false.
Proof.
  intros Hswo Hheap Hr y Hy.
  apply list_elem_of_lookup_1 in Hy as [i Hi]. revert y Hi.
  induction (lt_wf i) as [i _ IH]. intros y Hi.
  destruct (decide (i = 0)) as [->|Hne].
  { rewrite <- head_lookup, Hr in Hi. injection Hi as ->.
    apply (swo_irrefl _ Hswo). }
  assert (Hlt : (i - 1) / 2 < i).
  { apply Nat.Div0.div_lt_upper_bound. lia. }
  destruct (lookup_lt_is_Some_2 c ((i - 1) / 2)) as [x Hx].
  { apply lookup_lt_Some in Hi. lia. }
  eapply (swo_neg_trans _ Hswo); [exact (IH _ Hlt _ Hx)|].
  eapply (Hheap i); [lia|done..].
Qed.

(** A range sorted from greatest to least is a heap. *)
Lemma sorted_desc_is_heap c :
  StronglySorted (λ a b, comp a b = false) c → is_heap comp c.
Proof.
  intros Hs i x y Hi Hx Hy.
  assert (Hlt : (i - 1) / 2 < i) by (apply Nat.Div0.div_lt_upper_bound; lia).
  exact (StronglySorted_lookup _ c ((i - 1) / 2) i x y Hs Hlt Hx Hy).
Qed.

End heap_facts.

(** ** The reference implementation meets the contract *)

Section reference_facts.
Context {A : Type} (comp : A → A → bool) (Hswo : strict_weak_order comp).

Lemma sort_asc_permutation l : reference.sort_asc comp l ≡ₚ l.
Proof. apply merge_sort_Permutation. Qed.

Lemma sort_desc_permutation l : reference.sort_desc comp l ≡ₚ l.
Proof. apply merge_sort_Permutation. Qed.

Lemma sort_asc_sorted l : sorted_by comp (reference.sort_asc comp l).
Proof using Hswo.
  unfold sorted_by, reference.sort_asc. apply StronglySorted_merge_sort.
  - intros a b c Hab Hbc. by eapply (swo_neg_trans _ Hswo).
  - intros a b. destruct (comp b a) eqn:Hba; [right|by left].
    by apply (swo_asym _ Hswo).
Qed.

Lemma sort_desc_is_heap l : is_heap comp (reference.sort_desc comp l).
Proof using Hswo.
  apply sorted_desc_is_heap. unfold reference.sort_desc.
  apply StronglySorted_merge_sort.
  - intros a b c Hab Hbc. by eapply (swo_neg_trans _ Hswo).
  - intros a b. destruct (comp a b) eqn:Hab; [right|by left].
    by apply (swo_asym _ Hswo).
Qed.

End reference_facts.

#[local] Instance reference_algorithms : StdAlgorithms.
Proof.
  refine {| std_sort := @reference.sort_asc;
            std_push_heap := @reference.sort_desc;
            std_pop_heap := @reference.pop_heap |}.
  - intros A comp l _. apply sort_asc_permutation.
  - intros A comp l Hswo. by apply sort_asc_sorted.
  - intros A comp c x _ _. apply sort_desc_permutation.
  - intros A comp c x Hswo _. by apply sort_desc_is_heap.
  - intros A comp x c Hswo _. exists (reference.sort_desc comp c).
    split; [done|]. split; [apply sort_desc_permutation|by apply sort_desc_is_heap].
Defined.

(** * The ordering model: theorems *)

Lemma greater_than_less_than a b : greater_than a b = less_than b a.
Proof. reflexivity. Qed.

Lemma equal_to_eq a b : equal_to a b = true ↔ a = b.
Proof.
  unfold equal_to. destruct a as [ia ra oa], b as [ib rb ob]; simpl.
  rewrite !andb_true_iff, !N.eqb_eq, Bool.eqb_true_iff.
  split; [intros [[-> ->] ->]; done|]. by intros [= -> -> ->].
Qed.

(** C3: [less_than] on Positions is the lexicographic comparison: identifier
    first, then orientation with [false] before [true], then offset; when
    the three fields are equal neither position is less than the other. *)
Theorem less_than_lexicographic (a b : Position) :
  (less_than a b = true ↔
     (node_id a < node_id b)%N
     ∨ (node_id a = node_id b
        ∧ is_reverse a = false ∧ is_reverse b = true)
     ∨ (node_id a = node_id b
        ∧ is_reverse a = is_reverse b ∧ (offset a < offset b)%N))
  ∧ (node_id a = node_id b → is_reverse a = is_reverse b →
     offset a = offset b →
     less_than a b = false ∧ less_than b a = false).
Proof.
  split.
  - rewrite less_than_lex. unfold lex_lt. tauto.
  - intros Hid Hrev Hoff. rewrite !less_than_false. unfold lex_lt.
    rewrite Hid, Hrev, Hoff. split; intros Hlt;
      destruct (is_reverse b); intuition (try congruence; lia).
Qed.

(** The loop of [get_min_position] keeps a position of the path that no
    position seen so far is less than. *)
Lemma min_step_fold rest (p0 : Position) :
  let r := fold_left min_step rest p0 in
  (r = p0 ∨ r ∈ position <$> rest)
  ∧ less_than p0 r = false
  ∧ ∀ m, m ∈ rest → less_than (position m) r = false.
Proof.
  revert p0. induction rest as [|m rest IH]; intros p0; simpl.
  { split; [by left|]. split; [apply less_than_irrefl|].
    intros m Hm. by apply elem_of_nil in Hm. }
  destruct (IH (min_step p0 m)) as (Hin & Hle & Hall).
  assert (Hstep : less_than p0 (min_step p0 m) = false
                  ∧ less_than (position m) (min_step p0 m) = false).
  { unfold min_step. simpl. destruct (less_than (position m) p0) eqn:Hlt.
    - split; [by apply (swo_asym _ less_than_swo)|apply less_than_irrefl].
    - split; [apply less_than_irrefl|done]. }
  destruct Hstep as [Hp0 Hm]. split; [|split].
  - destruct Hin as [->|Hin]; [|right; by constructor].
    unfold min_step. simpl. destruct (less_than (position m) p0);
      [right; constructor|by left].
  - by eapply (swo_neg_trans _ less_than_swo).
  - intros m' [->|Hm']%elem_of_cons; [|by apply Hall].
    by eapply (swo_neg_trans _ less_than_swo).
Qed.

(** C4: [get_min_position] returns the all-zero sentinel for a path without
    mappings, and otherwise a position of the path that no position of the
    path is less than (the minimum under [less_than]). *)
Theorem get_min_position_minimum (p : Path) :
  (mapping_size p = 0 → get_min_position p = Position_default)
  ∧ (mapping_size p ≠ 0 →
     get_min_position p ∈ position <$> mapping p
     ∧ ∀ m, m ∈ mapping p →
         less_than (position m) (get_min_position p) = false).
Proof.
  unfold mapping_size, get_min_position.
  destruct (mapping p) as [|m0 rest]; simpl; split; try done.
  intros _. destruct (min_step_fold rest (position m0)) as (Hin & Hle & Hall).
  simpl in *. split.
  - destruct Hin as [->|Hin]; [constructor|by constructor].
  - intros m [->|Hm]%elem_of_cons; [done|by apply Hall].
Qed.

Lemma Position_default_least p : less_than p Position_default = false.
Proof.
  apply less_than_false. unfold lex_lt, Position_default; simpl.
  intros H. intuition (try congruence; lia).
Qed.

(** C5: the key of a record with an empty path is not greater than the key
    of any record whose key is not the sentinel, two records with empty
    paths have equivalent keys, and the sentinel is strictly less than
    every position with a non-zero identifier. *)
Theorem sentinel_first :
  (∀ a b : Alignment,
      mapping_size (path a) = 0 →
      get_min_position_aln b ≠ Position_default →
      less_than_aln b a = false
      ∧ greater_than (get_min_position_aln a) (get_min_position_aln b) = false)
  ∧ (∀ a a' : Alignment,
      mapping_size (path a) = 0 → mapping_size (path a') = 0 →
      less_than_aln a a' = false ∧ less_than_aln a' a = false)
  ∧ (∀ p : Position,
      node_id p ≠ 0%N → less_than Position_default p = true).
Proof.
  assert (Hkey : ∀ a, mapping_size (path a) = 0 →
                      get_min_position_aln a = Position_default).
  { intros a Ha. unfold get_min_position_aln, get_min_position.
    unfold mapping_size in Ha. by destruct (mapping (path a)). }
  split; [|split].
  - intros a b Ha _. rewrite greater_than_less_than. unfold less_than_aln.
    rewrite (Hkey a Ha). split; apply Position_default_least.
  - intros a a' Ha Ha'. unfold less_than_aln.
    rewrite (Hkey a Ha), (Hkey a' Ha'). split; apply less_than_irrefl.
  - intros p Hp. apply less_than_lex. left. simpl. lia.
Qed.

(** C7: [less_than] on Positions is a strict weak ordering: irreflexive,
    transitive, and with an incomparability relation that is an
    equivalence. *)
Theorem less_than_strict_weak_ordering :
  (∀ a, less_than a a = false)
  ∧ (∀ a b c, less_than a b = true → less_than b c = true →
               less_than a c = true)
  ∧ Equivalence (equiv_under less_than).
Proof.
  split; [apply less_than_irrefl|]. split; [apply less_than_trans|].
  split.
  - intros a. split; apply less_than_irrefl.
  - intros a b [Hab Hba]. by split.
  - intros a b c [Hab Hba] [Hbc Hcb].
    by apply (swo_incomp_trans _ less_than_swo a b c).
Qed.

(** C10: [equal_to] holds exactly when neither position is less than the
    other. *)
Theorem equal_to_iff_incomparable (a b : Position) :
  equal_to a b = true ↔ less_than a b = false ∧ less_than b a = false.
Proof.
  rewrite equal_to_eq. split.
  - intros ->. split; apply less_than_irrefl.
  - intros [Hab Hba]. by apply less_than_antisym.
Qed.

(** ** The stream helpers: facts *)

Lemma for_each_snoc {S : Type} (gam_in : list Alignment) a
    (f : S → Alignment → S) s :
  stream.for_each (gam_in ++ [a]) f s = f (stream.for_each gam_in f s) a.
Proof. unfold stream.for_each. by rewrite fold_left_app. Qed.

(** Writing through the buffer never loses, repeats or reorders a record:
    stream plus buffer is the same sequence before and after. *)
Lemma write_buffered_sequence out buffer limit :
  let r := stream.write_buffered out buffer limit in
  fst r ++ snd r = out ++ buffer.
Proof.
  unfold stream.write_buffered. destruct (limit <=? length buffer); simpl; [|done].
  by rewrite app_nil_r.
Qed.

(** The forced flush. *)
Lemma write_buffered_flush out buffer :
  stream.write_buffered out buffer 0 = (out ++ buffer, []).
Proof. done. Qed.

Lemma emit_sequence st a : fst (emit st a) ++ snd (emit st a) = (fst st ++ snd st) ++ [a].
Proof. unfold emit. rewrite write_buffered_sequence. by rewrite app_assoc. Qed.

Lemma fold_emit_sequence l st :
  let r := fold_left emit l st in fst r ++ snd r = (fst st ++ snd st) ++ l.
Proof.
  revert st. induction l as [|a l IH]; intros st; simpl.
  { by rewrite app_nil_r. }
  rewrite IH, emit_sequence. by rewrite <- app_assoc.
Qed.

Lemma insert_snoc {A : Type} (l : list A) x y :
  <[length l := x]> (l ++ [y]) = l ++ [x].
Proof.
  replace (length l) with (length l + 0) by lia. by rewrite insert_app_r.
Qed.

(** ** Run production: facts *)

Section producer_facts.
Context {alg : StdAlgorithms}.

Lemma sort_permutation alns : sort alns ≡ₚ alns.
Proof. apply std_sort_permutation, less_than_aln_swo. Qed.

Lemma sort_length alns : length (sort alns) = length alns.
Proof. apply Permutation_length, sort_permutation. Qed.

Lemma sort_sorted alns : sorted_by less_than_aln (sort alns).
Proof. apply std_sort_sorted, less_than_aln_swo. Qed.

(** [dumb_sort] writes out exactly the sorted buffer. *)
Lemma dumb_sort_sort gam_in : dumb_sort gam_in = sort gam_in.
Proof.
  unfold dumb_sort.
  assert (Hbuf : stream.for_each gam_in (λ buf aln, buf ++ [aln]) [] = gam_in).
  { induction gam_in as [|a l IH] using rev_ind; [done|].
    by rewrite for_each_snoc, IH. }
  rewrite Hbuf.
  pose proof (fold_emit_sequence (sort gam_in) ([], [])) as Hseq.
  destruct (fold_left emit (sort gam_in) ([], [])) as [out buffer].
  by rewrite write_buffered_flush.
Qed.

Lemma finish_buffer_unfold st :
  temp_file_names st = seq 0 (length (temp_store st)) →
  finish_buffer st =
    {| input_buffer := [];
       temp_file_names := seq 0 (S (length (temp_store st)));
       temp_store := temp_store st ++ [sort (input_buffer st)] |}.
Proof.
  intros Hnames. unfold finish_buffer, temp_file.create.
  rewrite write_buffered_flush, insert_snoc, Hnames. simpl app at 3.
  by rewrite seq_S.
Qed.

Lemma finish_buffer_inv consumed st :
  producer_inv consumed st → producer_inv consumed (finish_buffer st).
Proof.
  intros [Hnames Hsorted Hrecords]. rewrite finish_buffer_unfold by done.
  split; simpl.
  - by rewrite length_app, Nat.add_1_r.
  - apply Forall_app. split; [done|]. constructor; [apply sort_sorted|done].
  - rewrite concat_app. simpl. rewrite !app_nil_r.
    by rewrite sort_permutation.
Qed.

Lemma buffer_alignment_inv B consumed st a :
  producer_inv consumed st →
  producer_inv (consumed ++ [a]) (buffer_alignment B st a).
Proof.
  intros [Hnames Hsorted Hrecords].
  assert (producer_inv (consumed ++ [a])
            {| input_buffer := input_buffer st ++ [a];
               temp_file_names := temp_file_names st;
               temp_store := temp_store st |}) as Hinv.
  { split; simpl; [done..|]. by rewrite app_assoc, Hrecords. }
  unfold buffer_alignment. simpl.
  destruct (_ =? _); [by apply finish_buffer_inv|done].
Qed.

Lemma for_each_inv B gam_in :
  producer_inv gam_in
    (stream.for_each gam_in (buffer_alignment B) producer_init).
Proof.
  induction gam_in as [|a l IH] using rev_ind.
  { by split. }
  rewrite for_each_snoc. by apply buffer_alignment_inv.
Qed.

Lemma produce_runs_inv B gam_in : producer_inv gam_in (produce_runs B gam_in).
Proof. apply finish_buffer_inv, for_each_inv. Qed.

(** Counting: while the input is read, every file holds [B] records and the
    buffer fewer than [B]. *)
Lemma buffer_alignment_count B st a n :
  1 ≤ B →
  temp_file_names st = seq 0 (length (temp_store st)) →
  n = length (temp_file_names st) * B + length (input_buffer st) →
  length (input_buffer st) < B →
  let st' := buffer_alignment B st a in
  S n = length (temp_file_names st') * B + length (input_buffer st')
  ∧ length (input_buffer st') < B.
Proof.
  intros HB Hnames Hn Hlt. unfold buffer_alignment.
  cbn [input_buffer temp_file_names temp_store]. rewrite length_app.
  cbn [length]. destruct (Nat.eqb_spec (length (input_buffer st) + 1) B) as [Heq|Hne].
  - rewrite finish_buffer_unfold by done.
    cbn [input_buffer temp_file_names temp_store length].
    rewrite length_seq. rewrite Hnames, length_seq in Hn. lia.
  - cbn [input_buffer temp_file_names temp_store]. rewrite length_app.
    cbn [length]. lia.
Qed.

Lemma for_each_count B gam_in :
  1 ≤ B →
  let st := stream.for_each gam_in (buffer_alignment B) producer_init in
  length gam_in = length (temp_file_names st) * B + length (input_buffer st)
  ∧ length (input_buffer st) < B.
Proof.
  intros HB. induction gam_in as [|a l IH] using rev_ind.
  { cbn. lia. }
  cbv zeta in *. rewrite for_each_snoc, length_app, Nat.add_1_r.
  destruct IH as [Hlen Hlt].
  apply buffer_alignment_count; [done| |done..].
  apply (pinv_names _ _ (for_each_inv B l)).
Qed.

End producer_facts.

(** ** Cursors: facts *)

Lemma cursor_order_cases cursors a b :
  cursor_order cursors a b =
    match stream.deref (cursor_at cursors b), stream.deref (cursor_at cursors a) with
    | Some rb, Some ra => less_than_aln rb ra
    | Some _, None => true
    | None, _ => false
    end.
Proof.
  unfold cursor_order. by destruct (cursor_at cursors b), (cursor_at cursors a).
Qed.

(** [cursor_order] is a strict weak ordering of the cursors: the exhausted
    ones are least and equivalent, the others are ordered by their current
    record, reversed. *)
Lemma cursor_order_swo cursors : strict_weak_order (cursor_order cursors).
Proof.
  pose proof less_than_aln_swo as Hswo. split.
  - intros a. rewrite cursor_order_cases.
    destruct (stream.deref (cursor_at cursors a)); [apply (swo_irrefl _ Hswo)|done].
  - intros a b c. rewrite !cursor_order_cases.
    destruct (stream.deref (cursor_at cursors a)),
      (stream.deref (cursor_at cursors b)),
      (stream.deref (cursor_at cursors c)); try done.
    intros Hab Hbc. by apply (swo_trans _ Hswo _ _ _ Hbc Hab).
  - intros a b c. rewrite !cursor_order_cases.
    destruct (stream.deref (cursor_at cursors a)),
      (stream.deref (cursor_at cursors b)),
      (stream.deref (cursor_at cursors c)); try done.
    intros Hab Hba Hbc Hcb.
    destruct (swo_incomp_trans _ Hswo _ _ _ Hba Hab Hcb Hbc). by split.
Qed.

(** The comparator only reads the cursors it is handed. *)
Lemma cursor_order_ext cursors cursors' (c : list nat) :
  (∀ p, p ∈ c → cursor_at cursors' p = cursor_at cursors p) →
  is_heap (cursor_order cursors) c → is_heap (cursor_order cursors') c.
Proof.
  intros Hsame. apply is_heap_ext. intros x y Hx Hy.
  unfold cursor_order. by rewrite !Hsame.
Qed.

Lemma has_next_lookup cursors p :
  stream.has_next (cursor_at cursors p) = true ↔
  ∃ r rest, cursors !! p = Some (r :: rest).
Proof.
  unfold cursor_at. destruct (cursors !! p) as [[|r rest]|]; simpl; split;
    try done; try (intros (? & ? & ?); done). eauto.
Qed.

Lemma cursor_at_insert_eq cursors p c :
  p < length cursors → cursor_at (<[p := c]> cursors) p = c.
Proof. intros Hp. unfold cursor_at. by rewrite list_lookup_insert_eq. Qed.

Lemma cursor_at_insert_ne cursors p q c :
  p ≠ q → cursor_at (<[p := c]> cursors) q = cursor_at cursors q.
Proof. intros Hp. unfold cursor_at. by rewrite list_lookup_insert_ne. Qed.

(** Advancing one cursor takes exactly its current record out of the
    records left. *)
Lemma concat_advance (cursors : list stream.cursor_t) p r rest :
  cursors !! p = Some (r :: rest) →
  concat cursors ≡ₚ r :: concat (<[p := rest]> cursors).
Proof.
  intros Hp. pose proof (lookup_lt_Some _ _ _ Hp) as Hlt.
  rewrite (insert_take_drop cursors p rest Hlt).
  rewrite <- (take_drop_middle cursors p (r :: rest) Hp) at 1.
  rewrite !concat_app. simpl. by rewrite <- Permutation_middle.
Qed.

Lemma elem_of_concat {A : Type} (x : A) (ls : list (list A)) :
  x ∈ concat ls ↔ ∃ i l, ls !! i = Some l ∧ x ∈ l.
Proof.
  rewrite list_elem_of_In, in_concat. split.
  - intros (l & Hl & Hx). apply list_elem_of_In, list_elem_of_lookup_1 in Hl as [i Hi].
    exists i, l. by rewrite list_elem_of_In.
  - intros (i & l & Hi & Hx). exists l. rewrite <- !list_elem_of_In.
    split; [by eapply list_elem_of_lookup_2|done].
Qed.

Lemma concat_nil_has_next (cursors : list stream.cursor_t) :
  (∀ p, stream.has_next (cursor_at cursors p) = false) → concat cursors = [].
Proof.
  intros Hall. destruct (concat cursors) as [|x l] eqn:Hc; [done|]. exfalso.
  assert (x ∈ concat cursors) as (i & cur & Hi & Hx)%elem_of_concat
    by (rewrite Hc; constructor).
  specialize (Hall i). unfold cursor_at in Hall. rewrite Hi in Hall.
  destruct cur; [by apply elem_of_nil in Hx|done].
Qed.

(** ** The priority queue and the merge: facts *)

Section merge_facts.
Context {alg : StdAlgorithms}.

Lemma pq_push_spec {T : Type} (comp : T → T → bool) x c :
  strict_weak_order comp → is_heap comp c →
  priority_queue.push comp x c ≡ₚ x :: c
  ∧ is_heap comp (priority_queue.push comp x c).
Proof.
  intros Hswo Hheap. unfold priority_queue.push. split.
  - rewrite std_push_heap_permutation by done.
    by rewrite <- Permutation_cons_append.
  - by apply std_push_heap_is_heap.
Qed.

Lemma pq_pop_spec {T : Type} (comp : T → T → bool) x c :
  strict_weak_order comp → is_heap comp (x :: c) →
  priority_queue.pop comp (x :: c) ≡ₚ c
  ∧ is_heap comp (priority_queue.pop comp (x :: c)).
Proof.
  intros Hswo Hheap. unfold priority_queue.pop.
  destruct (std_pop_heap_spec comp x c Hswo Hheap) as (c' & -> & Hperm & Hheap').
  by rewrite removelast_last.
Qed.

(** What one iteration of the loop does, read off [merge_step]: the winner
    is the front of the queue and has a current record; that record is
    written; the winner is advanced and pushed back only if it still has a
    record. *)
Lemma merge_step_inv st st' :
  merge_step st = Some st' →
  ∃ winner c r rest,
    temp_files st = winner :: c
    ∧ temp_cursors st !! winner = Some (r :: rest)
    ∧ temp_cursors st' = <[winner := rest]> (temp_cursors st)
    ∧ temp_files st' =
        (let popped :=
           priority_queue.pop (cursor_order (temp_cursors st)) (winner :: c) in
         if stream.has_next rest
         then priority_queue.push (cursor_order (temp_cursors st')) winner popped
         else popped)
    ∧ emitted st' = emitted st ++ [r].
Proof.
  unfold merge_step, merge_guard. destruct st as [cursors queue buffer out].
  cbn [temp_cursors temp_files output_buffer gam_out].
  destruct queue as [|winner c]; [done|]. cbn [priority_queue.empty priority_queue.top head].
  destruct (stream.has_next (cursor_at cursors winner)) eqn:Hnext; [|done].
  apply has_next_lookup in Hnext as (r & rest & Hw).
  unfold merge_body. cbn [temp_cursors temp_files output_buffer gam_out].
  assert (Hat : cursor_at cursors winner = r :: rest).
  { unfold cursor_at. by rewrite Hw. }
  rewrite Hat. cbn [stream.deref head stream.get_next tail].
  pose proof (write_buffered_sequence out (buffer ++ [r]) 1000) as Hseq.
  destruct (stream.write_buffered out (buffer ++ [r]) 1000) as [out' buffer'].
  rewrite cursor_at_insert_eq by (by eapply lookup_lt_Some).
  intros [= <-]. exists winner, c, r, rest.
  cbn [temp_cursors temp_files output_buffer gam_out].
  repeat split; try done.
  unfold emitted. cbn [temp_cursors temp_files output_buffer gam_out].
  simpl in Hseq. by rewrite Hseq, app_assoc.
Qed.

(** Every iteration passes one record. *)
Lemma merge_step_records_left st st' :
  merge_step st = Some st' → records_left st = S (records_left st').
Proof.
  intros (w & c & r & rest & _ & Hw & Hc & _)%merge_step_inv.
  unfold records_left. by rewrite Hc, (concat_advance _ _ _ _ Hw).
Qed.

(** The current record of the front cursor of the queue is a least record
    among all the records left. *)
Lemma winner_least all st winner c r rest :
  merge_inv all st →
  temp_files st = winner :: c →
  temp_cursors st !! winner = Some (r :: rest) →
  ∀ r', r' ∈ concat (temp_cursors st) → less_than_aln r' r = false.
Proof.
  intros Hinv Hq Hw r' (p & cur & Hp & Hr')%elem_of_concat.
  pose proof less_than_aln_swo as Hswo.
  destruct cur as [|hd tl]; [by apply elem_of_nil in Hr'|].
  assert (Hhd : less_than_aln hd r = false).
  { assert (Hin : p ∈ temp_files st).
    { apply (minv_live _ _ Hinv), has_next_lookup. eauto. }
    pose proof (is_heap_root_max _ _ winner (cursor_order_swo _)
                  (minv_heap _ _ Hinv)) as Hmax.
    rewrite Hq in Hmax, Hin. specialize (Hmax eq_refl p Hin).
    rewrite cursor_order_cases in Hmax. unfold cursor_at in Hmax.
    by rewrite Hp, Hw in Hmax. }
  apply elem_of_cons in Hr' as [->|Hr']; [done|].
  eapply (swo_neg_trans _ Hswo); [|exact Hhd].
  pose proof (minv_runs _ _ Hinv) as Hruns. rewrite Forall_lookup in Hruns.
  specialize (Hruns _ _ Hp). apply StronglySorted_cons in Hruns as [Hall _].
  rewrite Forall_forall in Hall. by apply Hall.
Qed.


(** The queue after an iteration: the cursors that were behind the winner,
    and the winner again if it still has a record. *)
Lemma merge_step_queue all st st' :
  merge_inv all st → merge_step st = Some st' →
  ∃ winner c r rest,
    temp_files st = winner :: c
    ∧ temp_cursors st !! winner = Some (r :: rest)
    ∧ temp_cursors st' = <[winner := rest]> (temp_cursors st)
    ∧ emitted st' = emitted st ++ [r]
    ∧ (winner ∉ c)
    ∧ is_heap (cursor_order (temp_cursors st')) (temp_files st')
    ∧ NoDup (temp_files st')
    ∧ ∀ p, p ∈ temp_files st' ↔
           p ∈ c ∨ (p = winner ∧ stream.has_next rest = true).
Proof.
  intros Hinv Hstep.
  pose proof (merge_step_inv _ _ Hstep) as (w & c & r & rest & Hq & Hw & Hc & Hf & He).
  exists w, c, r, rest. do 4 (split; [done|]).
  pose proof (minv_heap _ _ Hinv) as Hheap. pose proof (minv_nodup _ _ Hinv) as Hnd.
  rewrite Hq in Hheap, Hnd. apply NoDup_cons in Hnd as [Hwc Hndc].
  split; [done|].
  destruct (pq_pop_spec _ _ _ (cursor_order_swo _) Hheap) as [Hpop Hpopheap].
  cbv zeta in Hf. set (popped := priority_queue.pop _ _) in *.
  assert (Hheap' : is_heap (cursor_order (temp_cursors st')) popped).
  { eapply cursor_order_ext; [|exact Hpopheap]. intros p Hp. rewrite Hc.
    apply cursor_at_insert_ne. intros ->. by rewrite Hpop in Hp. }
  rewrite Hf. destruct (stream.has_next rest).
  - destruct (pq_push_spec _ w _ (cursor_order_swo (temp_cursors st')) Hheap')
      as [Hpush Hpushheap].
    split; [done|]. split.
    + rewrite Hpush, Hpop. by constructor.
    + intros p. rewrite Hpush, Hpop, elem_of_cons. tauto.
  - split; [done|]. split; [by rewrite Hpop|].
    intros p. rewrite Hpop. split; [tauto|]. by intros [?|[_ ?]].
Qed.

(** One iteration keeps the invariant. *)
Lemma merge_step_preserves all st st' :
  merge_inv all st → merge_step st = Some st' → merge_inv all st'.
Proof.
  intros Hinv Hstep.
  pose proof (merge_step_queue _ _ _ Hinv Hstep)
    as (w & c & r & rest & Hq & Hw & Hc & He & Hwc & Hh & Hn & Hin).
  pose proof (winner_least _ _ _ _ _ _ Hinv Hq Hw) as Hleast.
  pose proof (lookup_lt_Some _ _ _ Hw) as Hlt.
  pose proof (concat_advance _ _ _ _ Hw) as Hadv.
  split; try done.
  - intros p Hp. apply Hin. rewrite Hc in Hp.
    destruct (decide (p = w)) as [->|Hne].
    + right. by rewrite cursor_at_insert_eq in Hp.
    + left. rewrite cursor_at_insert_ne in Hp by done.
      apply (minv_live _ _ Hinv) in Hp. rewrite Hq in Hp.
      by apply elem_of_cons in Hp as [?|?].
  - rewrite Hc. apply Forall_insert; [apply (minv_runs _ _ Hinv)|].
    pose proof (minv_runs _ _ Hinv) as Hruns. rewrite Forall_lookup in Hruns.
    specialize (Hruns _ _ Hw). by apply StronglySorted_cons in Hruns as [_ ?].
  - rewrite He. apply StronglySorted_app_2.
    + intros e x He' ->%list_elem_of_singleton.
      apply (minv_bound _ _ Hinv); [done|]. rewrite Hadv. constructor.
    + apply (minv_sorted _ _ Hinv).
    + repeat constructor.
  - intros e r' He' Hr'. rewrite Hc in Hr'.
    assert (r' ∈ concat (temp_cursors st)) by (rewrite Hadv; by constructor).
    rewrite He in He'. apply elem_of_app in He' as [He'| ->%list_elem_of_singleton].
    + by apply (minv_bound _ _ Hinv).
    + by apply Hleast.
  - rewrite He, Hc, <- app_assoc. simpl. rewrite <- Hadv.
    apply (minv_records _ _ Hinv).
Qed.

(** When the guard ends the loop, no record is left in any cursor. *)
Lemma merge_done_no_records all st :
  merge_inv all st → merge_step st = None → concat (temp_cursors st) = [].
Proof.
  intros Hinv Hstep. apply concat_nil_has_next. intros p.
  destruct (stream.has_next (cursor_at (temp_cursors st) p)) eqn:Hp; [|done].
  exfalso. pose proof (minv_live _ _ Hinv p Hp) as Hin.
  unfold merge_step, merge_guard in Hstep.
  destruct (temp_files st) as [|top c] eqn:Hq; [by apply elem_of_nil in Hin|].
  cbn [priority_queue.empty priority_queue.top head] in Hstep.
  destruct (stream.has_next (cursor_at (temp_cursors st) top)) eqn:Htop.
  - unfold merge_body in Hstep.
    destruct (cursor_at (temp_cursors st) top) as [|r rest]; [done|].
    cbn [stream.deref head] in Hstep.
    by destruct (stream.write_buffered _ _ _).
  - pose proof (is_heap_root_max _ _ top (cursor_order_swo _)
                  (minv_heap _ _ Hinv)) as Hmax.
    rewrite Hq in Hmax. specialize (Hmax eq_refl p Hin).
    unfold cursor_order in Hmax. by rewrite Hp, Htop in Hmax.
Qed.

(** The loop ends within the fuel [records_left] gives it, in a state that
    keeps the invariant and where the guard fails. *)
Lemma merge_loop_ends all fuel st :
  merge_inv all st → records_left st ≤ fuel →
  ∃ st', merge_loop fuel st = Some st'
         ∧ merge_inv all st' ∧ merge_step st' = None.
Proof.
  revert st. induction fuel as [|fuel IH]; intros st Hinv Hfuel; simpl.
  - destruct (merge_step st) as [st'|] eqn:Hstep; [|by eauto].
    apply merge_step_records_left in Hstep. lia.
  - destruct (merge_step st) as [st'|] eqn:Hstep; [|by eauto].
    apply IH; [by eapply merge_step_preserves|].
    apply merge_step_records_left in Hstep. lia.
Qed.

End merge_facts.

(** ** The pipeline as a whole: facts *)

Section pipeline_facts.
Context {alg : StdAlgorithms}.

(** Opening the first [j] files: the cursors are the files, in order, and
    the queue is a heap holding the address of each cursor once. *)
Lemma open_temp_files_spec store j :
  j ≤ length store →
  let r := fold_left (open_temp_file store) (seq 0 j) ([], []) in
  fst r = take j store
  ∧ snd r ≡ₚ seq 0 j
  ∧ is_heap (cursor_order (take j store)) (snd r).
Proof.
  induction j as [|j IH]; intros Hj.
  { cbn. split; [by rewrite take_0|]. split; [done|apply is_heap_nil]. }
  destruct IH as (Hcur & Hperm & Hheap); [lia|].
  cbv zeta. rewrite seq_S, fold_left_app. cbn [fold_left Nat.add].
  destruct (fold_left (open_temp_file store) (seq 0 j) ([], [])) as [cursors queue].
  cbn [fst snd] in *. subst cursors.
  destruct (lookup_lt_is_Some_2 store j) as [run Hrun]; [lia|].
  unfold open_temp_file, temp_file.open. cbn [fst snd]. rewrite Hrun. cbn [default from_option id].
  rewrite <- (take_S_r _ _ _ Hrun).
  rewrite length_take, Nat.min_l, Nat.sub_1_r by lia. cbn [Nat.pred].
  assert (Hheap' : is_heap (cursor_order (take (S j) store)) queue).
  { eapply cursor_order_ext; [|exact Hheap]. intros p Hp.
    rewrite Hperm in Hp. apply elem_of_seq in Hp.
    unfold cursor_at. rewrite !lookup_take_lt by lia. done. }
  destruct (pq_push_spec _ j _ (cursor_order_swo (take (S j) store)) Hheap')
    as [Hpush Hpushheap].
  split; [done|]. split; [|done].
  rewrite Hpush, Hperm. by rewrite <- Permutation_cons_append.
Qed.

Lemma merge_init_inv all p :
  producer_inv all p → input_buffer p = [] → merge_inv all (merge_init p).
Proof.
  intros [Hnames Hsorted Hrecords] Hbuf. unfold merge_init. rewrite Hnames.
  destruct (open_temp_files_spec (temp_store p) (length (temp_store p)))
    as (Hcur & Hperm & Hheap); [done|].
  destruct (fold_left _ _ _) as [cursors queue]. cbn [fst snd] in *.
  rewrite firstn_all in Hcur, Hheap. subst cursors.
  split; cbn [temp_cursors temp_files]; unfold emitted;
    cbn [temp_cursors temp_files gam_out output_buffer app].
  - done.
  - rewrite Hperm. apply NoDup_seq.
  - intros q (r & rest & Hq)%has_next_lookup. rewrite Hperm.
    apply elem_of_seq. apply lookup_lt_Some in Hq. lia.
  - done.
  - constructor.
  - intros e r He. by apply elem_of_nil in He.
  - rewrite Hbuf, app_nil_r in Hrecords. done.
Qed.

Lemma produce_runs_buffer B gam_in : input_buffer (produce_runs B gam_in) = [].
Proof.
  unfold produce_runs. rewrite finish_buffer_unfold; [done|].
  apply (pinv_names _ _ (for_each_inv B gam_in)).
Qed.

(** The merge of the runs of [gam_in] ends, and what it has written is a
    sorted rearrangement of [gam_in]. *)
Lemma stream_sort_correct B gam_in :
  ∃ out, stream_sort B gam_in = Some out
         ∧ out ≡ₚ gam_in ∧ sorted_by less_than_aln out.
Proof.
  unfold stream_sort, merge_runs.
  pose proof (merge_init_inv gam_in _ (produce_runs_inv B gam_in)
                (produce_runs_buffer B gam_in)) as Hinit.
  destruct (merge_loop_ends gam_in _ _ Hinit (le_n _)) as (st & -> & Hinv & Hend).
  rewrite write_buffered_flush. cbn [fst]. eexists. split; [done|].
  pose proof (minv_records _ _ Hinv) as Hrec.
  rewrite (merge_done_no_records _ _ Hinv Hend), app_nil_r in Hrec.
  split; [done|]. apply (minv_sorted _ _ Hinv).
Qed.

End pipeline_facts.

(** ** Run production: counting the runs *)

Section run_count.
Context {alg : StdAlgorithms}.

Lemma for_each_full_runs B gam_in :
  Forall (λ run, length run = B)
    (temp_store (stream.for_each gam_in (buffer_alignment B) producer_init)).
Proof.
  induction gam_in as [|a l IH] using rev_ind; [by constructor|].
  rewrite for_each_snoc. unfold buffer_alignment at 1.
  cbn [input_buffer temp_file_names temp_store].
  destruct (Nat.eqb_spec (length (input_buffer
    (stream.for_each l (buffer_alignment B) producer_init) ++ [a])) B) as [Heq|Hne];
    [|done].
  rewrite finish_buffer_unfold by apply (pinv_names _ _ (for_each_inv B l)).
  cbn [input_buffer temp_file_names temp_store].
  apply Forall_app. split; [done|]. constructor; [|done].
  by rewrite sort_length.
Qed.

Lemma produce_runs_shape B gam_in :
  1 ≤ B →
  ∃ full last,
    temp_store (produce_runs B gam_in) = full ++ [last]
    ∧ temp_file_names (produce_runs B gam_in) = seq 0 (S (length full))
    ∧ Forall (λ run, length run = B) full
    ∧ length full = length gam_in / B
    ∧ length last = length gam_in mod B.
Proof.
  intros HB. unfold produce_runs.
  pose proof (for_each_inv B gam_in) as [Hnames _ _].
  pose proof (for_each_full_runs B gam_in) as Hfull.
  destruct (for_each_count B gam_in HB) as [Hlen Hlt].
  set (st := stream.for_each gam_in (buffer_alignment B) producer_init) in *.
  rewrite finish_buffer_unfold by done. cbn [temp_store temp_file_names].
  exists (temp_store st), (sort (input_buffer st)).
  rewrite Hnames, length_seq in Hlen. rewrite sort_length.
  repeat split; try done.
  - apply (Nat.div_unique _ _ _ (length (input_buffer st))); lia.
  - apply (Nat.mod_unique _ _ (length (temp_store st))); lia.
Qed.

End run_count.

(** ** The merge loop: the states it passes through *)

Section merge_trace.
Context {alg : StdAlgorithms}.

Lemma merge_reaches_inv all st st' :
  merge_reaches st st' → merge_inv all st → merge_inv all st'.
Proof.
  induction 1 as [|s1 s2 s3 Hstep _ IH]; [done|].
  intros Hinv. by apply IH, (merge_step_preserves _ s1).
Qed.

Lemma merge_step_winner_emits all st st' :
  merge_inv all st → merge_step st = Some st' → winner_emits st st'.
Proof.
  intros Hinv Hstep.
  pose proof (merge_step_queue _ _ _ Hinv Hstep)
    as (w & c & r & rest & Hq & Hw & Hc & He & Hwc & _ & _ & Hin).
  pose proof (lookup_lt_Some _ _ _ Hw) as Hlt.
  exists w, r. rewrite Hq. unfold cursor_at at 1 2. rewrite Hw.
  repeat split; try done.
  rewrite Hc, cursor_at_insert_eq by done.
  intros Hnext Hmem. destruct (proj1 (Hin w) Hmem) as [?|[_ ?]]; [done|congruence].
Qed.

Lemma merge_step_frontier all runs st st' :
  merge_inv all st → merge_step st = Some st' →
  frontier_live_or_empty_run runs st → frontier_live_or_empty_run runs st'.
Proof.
  intros Hinv Hstep Hfr p Hp Hnext.
  pose proof (merge_step_queue _ _ _ Hinv Hstep)
    as (w & c & r & rest & Hq & Hw & Hc & He & Hwc & _ & _ & Hin).
  pose proof (lookup_lt_Some _ _ _ Hw) as Hlt.
  rewrite Hc in Hnext. destruct (proj1 (Hin p) Hp) as [Hpc|[Hpw Hrest]].
  - rewrite cursor_at_insert_ne in Hnext by (by intros ->).
    apply Hfr; [|done]. rewrite Hq. by constructor.
  - subst p. rewrite cursor_at_insert_eq in Hnext by done. congruence.
Qed.

Lemma merge_step_empty_runs all runs st st' :
  merge_inv all st → merge_step st = Some st' →
  empty_runs_stay runs st → empty_runs_stay runs st'.
Proof.
  intros Hinv Hstep Hstay p Hp. destruct (Hstay p Hp) as [Hin Hnext].
  pose proof (merge_step_queue _ _ _ Hinv Hstep)
    as (w & c & r & rest & Hq & Hw & Hc & He & Hwc & _ & _ & Hin').
  assert (Hne : w ≠ p).
  { intros ->. unfold cursor_at in Hnext. by rewrite Hw in Hnext. }
  rewrite Hc, cursor_at_insert_ne by done. split; [|done].
  apply Hin'. left. rewrite Hq in Hin.
  apply elem_of_cons in Hin as [->|Hin]; done.
Qed.

Lemma merge_init_empty_runs all p :
  producer_inv all p → empty_runs_stay (temp_store p) (merge_init p).
Proof.
  intros [Hnames _ _] q Hq. unfold merge_init. rewrite Hnames.
  destruct (open_temp_files_spec (temp_store p) (length (temp_store p)))
    as (Hcur & Hperm & _); [done|].
  destruct (fold_left _ _ _) as [cursors queue]. cbn [fst snd] in *.
  rewrite firstn_all in Hcur. subst cursors.
  cbn [temp_cursors temp_files]. split.
  - rewrite Hperm. apply elem_of_seq. apply lookup_lt_Some in Hq. lia.
  - unfold cursor_at. by rewrite Hq.
Qed.

(** [cursor_order] puts an exhausted cursor behind every cursor that has a
    record. *)
Lemma cursor_order_exhausted_last cursors a b :
  stream.has_next (cursor_at cursors a) = false →
  stream.has_next (cursor_at cursors b) = true →
  cursor_order cursors a b = true ∧ cursor_order cursors b a = false.
Proof. intros Ha Hb. unfold cursor_order. by rewrite Ha, Hb. Qed.

Lemma merge_init_frontier all p :
  producer_inv all p →
  frontier_live_or_empty_run (temp_store p) (merge_init p).
Proof.
  intros [Hnames _ _] q Hq Hnext. unfold merge_init in *. rewrite Hnames in *.
  destruct (open_temp_files_spec (temp_store p) (length (temp_store p)))
    as (Hcur & Hperm & _); [done|].
  destruct (fold_left _ _ _) as [cursors queue]. cbn [fst snd] in *.
  rewrite firstn_all in Hcur. subst cursors.
  cbn [temp_cursors temp_files] in *. rewrite Hperm in Hq.
  apply elem_of_seq in Hq. unfold cursor_at in Hnext.
  destruct (lookup_lt_is_Some_2 (temp_store p) q) as [run Hrun]; [lia|].
  rewrite Hrun in Hnext. by destruct run.
Qed.

End merge_trace.

(** ** Two sorted arrangements of the same records *)

(** Equivalent keys are equal keys, so two sorted arrangements of the same
    records carry the same key at every index. *)
Lemma sorted_permutation_keys (l1 l2 : list Alignment) :
  l1 ≡ₚ l2 → sorted_by less_than_aln l1 → sorted_by less_than_aln l2 →
  get_min_position_aln <$> l1 = get_min_position_aln <$> l2.
Proof.
  intros Hperm Hs1 Hs2.
  apply (StronglySorted_unique_strong (λ a b, less_than b a = false)).
  - intros x1 x2 _ _ H12 H21. by apply less_than_antisym.
  - by apply (StronglySorted_fmap _ (λ a b, less_than_aln b a = false)).
  - by apply (StronglySorted_fmap _ (λ a b, less_than_aln b a = false)).
  - by rewrite Hperm.
Qed.

Lemma sorted_permutation_equiv (l1 l2 : list Alignment) :
  l1 ≡ₚ l2 → sorted_by less_than_aln l1 → sorted_by less_than_aln l2 →
  Forall2 (equiv_under less_than_aln) l1 l2.
Proof.
  intros Hperm Hs1 Hs2.
  pose proof (sorted_permutation_keys _ _ Hperm Hs1 Hs2) as Hkeys.
  apply list_eq_Forall2 in Hkeys.
  apply (proj1 (Forall2_fmap get_min_position_aln get_min_position_aln eq l1 l2))
    in Hkeys.
  eapply Forall2_impl; [exact Hkeys|]. intros a b Hab. simpl in Hab.
  unfold equiv_under, less_than_aln. rewrite Hab.
  split; apply less_than_irrefl.
Qed.

(** * The pipeline: theorems *)

Section pipeline_theorems.
Context {alg : StdAlgorithms}.

(** C1: for every input and every batch size [stream_sort] ends, and the
    records it writes are in non-decreasing order of their derived keys: no
    record's key is less than the key of a record written before it. *)
Theorem stream_sort_non_decreasing (max_buf_size : nat) (gam_in : list Alignment) :
  ∃ out, stream_sort max_buf_size gam_in = Some out
         ∧ sorted_by less_than_aln out
         ∧ ∀ i j a b, i < j → out !! i = Some a → out !! j = Some b →
             less_than (get_min_position_aln b) (get_min_position_aln a) = false.
Proof.
  destruct (stream_sort_correct max_buf_size gam_in) as (out & Hout & _ & Hsorted).
  exists out. split; [done|]. split; [done|].
  intros i j a b Hij Ha Hb.
  exact (StronglySorted_lookup _ out i j a b Hsorted Hij Ha Hb).
Qed.

(** C2: for every input and every batch size [stream_sort] ends, and the
    records it writes are the records of the input, each as often as it
    occurs there; the empty input gives the empty output. *)
Theorem stream_sort_same_records (max_buf_size : nat) (gam_in : list Alignment) :
  (∃ out, stream_sort max_buf_size gam_in = Some out ∧ out ≡ₚ gam_in)
  ∧ stream_sort max_buf_size [] = Some [].
Proof.
  split.
  - destruct (stream_sort_correct max_buf_size gam_in) as (out & Hout & Hperm & _).
    by exists out.
  - destruct (stream_sort_correct max_buf_size []) as (out & Hout & Hperm & _).
    by apply Permutation_nil_r in Hperm as ->.
Qed.

(** C6, amended: with a batch size of at least one, the first phase of
    [stream_sort] creates [n / B + 1] runs for an input of [n] records:
    [n / B] runs of [B] records each, then one run of [n mod B] records. *)
Theorem produce_runs_count (max_buf_size : nat) (gam_in : list Alignment) :
  1 ≤ max_buf_size →
  length (temp_file_names (produce_runs max_buf_size gam_in))
    = length gam_in / max_buf_size + 1
  ∧ length <$> temp_store (produce_runs max_buf_size gam_in)
    = replicate (length gam_in / max_buf_size) max_buf_size
        ++ [length gam_in mod max_buf_size].
Proof.
  intros HB.
  destruct (produce_runs_shape max_buf_size gam_in HB)
    as (full & last & -> & -> & Hfull & Hlen & Hlast).
  rewrite length_seq, fmap_app, <- Hlen, <- Hlast. split; [lia|].
  f_equal. clear Hlen. induction Hfull as [|run full Hrun _ IH]; [done|].
  cbn. by rewrite Hrun, IH.
Qed.

(** C8: for every input and every batch size, [stream_sort] and [dumb_sort]
    write outputs of the same length whose records have equivalent keys at
    every index. *)
Theorem stream_sort_matches_dumb_sort (max_buf_size : nat) (gam_in : list Alignment) :
  ∃ out, stream_sort max_buf_size gam_in = Some out
         ∧ Forall2 (equiv_under less_than_aln) out (dumb_sort gam_in).
Proof.
  destruct (stream_sort_correct max_buf_size gam_in) as (out & Hout & Hperm & Hsorted).
  exists out. split; [done|]. rewrite dumb_sort_sort.
  apply sorted_permutation_equiv; [|done|apply sort_sorted].
  by rewrite Hperm, sort_permutation.
Qed.

(** C9, amended: in every state the merge loop of [stream_sort] passes
    through, the cursor an iteration picks has a current record and that
    record is what the iteration writes; a winner left without a record is
    not put back in the queue; the exhausted cursors in the queue are
    exactly the cursors opened on empty runs, which stay there; they are
    ordered behind every cursor that has a record, and the loop only ends
    when no cursor has a record. *)
Theorem merge_never_picks_exhausted_cursor
    (max_buf_size : nat) (gam_in : list Alignment) (st : merge_state) :
  merge_reaches (merge_init (produce_runs max_buf_size gam_in)) st →
  (∀ st', merge_step st = Some st' → winner_emits st st')
  ∧ frontier_live_or_empty_run
      (temp_store (produce_runs max_buf_size gam_in)) st
  ∧ empty_runs_stay (temp_store (produce_runs max_buf_size gam_in)) st
  ∧ (∀ a b, stream.has_next (cursor_at (temp_cursors st) a) = false →
            stream.has_next (cursor_at (temp_cursors st) b) = true →
            cursor_order (temp_cursors st) a b = true
            ∧ cursor_order (temp_cursors st) b a = false)
  ∧ (merge_step st = None →
     ∀ p, stream.has_next (cursor_at (temp_cursors st) p) = false).
Proof.
  intros Hreach.
  pose proof (produce_runs_inv max_buf_size gam_in) as Hprod.
  pose proof (merge_init_inv gam_in _ Hprod
                (produce_runs_buffer max_buf_size gam_in)) as Hinit.
  pose proof (merge_reaches_inv _ _ _ Hreach Hinit) as Hinv.
  pose proof (merge_init_frontier _ _ Hprod) as Hfr.
  pose proof (merge_init_empty_runs _ _ Hprod) as Hstay.
  split; [|split; [|split; [|split]]].
  - intros st' Hstep. by eapply merge_step_winner_emits.
  - revert Hfr Hinit.
    generalize (temp_store (produce_runs max_buf_size gam_in)) as runs.
    clear Hinv Hstay.
    induction Hreach as [|s1 s2 s3 Hstep _ IH]; intros runs Hfr Hinit; [done|].
    apply IH; [by eapply merge_step_frontier|by eapply merge_step_preserves].
  - revert Hstay Hinit.
    generalize (temp_store (produce_runs max_buf_size gam_in)) as runs.
    clear Hinv Hfr.
    induction Hreach as [|s1 s2 s3 Hstep _ IH]; intros runs Hstay Hinit; [done|].
    apply IH; [by eapply merge_step_empty_runs|by eapply merge_step_preserves].
  - apply cursor_order_exhausted_last.
  - intros Hend p.
    pose proof (merge_done_no_records _ _ Hinv Hend) as Hnil.
    destruct (stream.has_next (cursor_at (temp_cursors st) p)) eqn:Hp; [|done].
    apply has_next_lookup in Hp as (r & rest & Hp).
    assert (r ∈ concat (temp_cursors st)) as Hin.
    { apply elem_of_concat. exists p, (r :: rest). split; [done|constructor]. }
    rewrite Hnil in Hin. by apply elem_of_nil in Hin.
Qed.

End pipeline_theorems.

(** * The sorter run on the reference implementation *)

Example three_keys_sorted :
  names_of (stream_sort (alg := reference_algorithms) 2
              [ aligned 5 false 10 "a"; aligned 3 true 2 "b"; aligned 5 false 1 "c" ])
  = Some ["b"; "c"; "a"].
Proof. vm_compute. reflexivity. Qed.

Example unaligned_record_first :
  names_of (stream_sort (alg := reference_algorithms) 1
              [ aligned 1 false 0 "a"; unaligned "u" ])
  = Some ["u"; "a"].
Proof. vm_compute. reflexivity. Qed.

Example five_records_three_runs :
  length <$> temp_store (produce_runs (alg := reference_algorithms) 2 five_records)
  = [2; 2; 1]
  ∧ names_of (stream_sort (alg := reference_algorithms) 2 five_records)
    = Some ["e"; "b"; "c"; "a"; "d"].
Proof. vm_compute. split; reflexivity. Qed.

Example four_records_three_runs :
  length <$> temp_store (produce_runs (alg := reference_algorithms) 2
                           (take 4 five_records))
  = [2; 2; 0].
Proof. vm_compute. reflexivity. Qed.

Example batch_size_zero_one_run :
  length <$> temp_store (produce_runs (alg := reference_algorithms) 0 five_records)
  = [5]
  ∧ names_of (stream_sort (alg := reference_algorithms) 0 five_records)
    = Some ["e"; "b"; "c"; "a"; "d"].
Proof. vm_compute. split; reflexivity. Qed.

Example empty_input_empty_output :
  stream_sort (alg := reference_algorithms) 1 [] = Some []
  ∧ temp_store (produce_runs (alg := reference_algorithms) 1 []) = [[]].
Proof. vm_compute. split; reflexivity. Qed.

Example dumb_sort_five_records :
  name <$> dumb_sort (alg := reference_algorithms) five_records
  = ["e"; "b"; "c"; "a"; "d"].
Proof. vm_compute. reflexivity. Qed.

(** C6 at [max_buf_size = 2] and five records. *)
Lemma produce_runs_count_witness :
  1 ≤ 2
  ∧ length (temp_file_names (produce_runs (alg := reference_algorithms) 2 five_records))
    = length five_records / 2 + 1
  ∧ length <$> temp_store (produce_runs (alg := reference_algorithms) 2 five_records)
    = replicate (length five_records / 2) 2 ++ [length five_records mod 2].
Proof.
  split; [lia|].
  apply (produce_runs_count (alg := reference_algorithms) 2 five_records). lia.
Defined.

(** C6 as stated fails on the empty input: the unconditional
    [finish_buffer()] after the read loop creates one (empty) run where
    [⌈0 / 1⌉] is zero. *)
Lemma empty_input_creates_one_run :
  length (temp_file_names (produce_runs (alg := reference_algorithms) 1 []))
  ≠ ceil_div (length (@nil Alignment)) 1.
Proof. vm_compute. discriminate. Qed.

(** C9 after the first iteration of the merge of two one-record runs and an
    empty one. *)
Lemma merge_never_picks_exhausted_cursor_witness :
  let gam_in := [ aligned 5 false 10 "a"; aligned 3 true 2 "b" ] in
  let runs := produce_runs (alg := reference_algorithms) 1 gam_in in
  let st0 := merge_init (alg := reference_algorithms) runs in
  let st := default st0 (merge_step (alg := reference_algorithms) st0) in
  merge_reaches (alg := reference_algorithms) st0 st
  ∧ (∀ st', merge_step (alg := reference_algorithms) st = Some st' →
            winner_emits st st')
  ∧ frontier_live_or_empty_run (temp_store runs) st
  ∧ empty_runs_stay (temp_store runs) st
  ∧ (∀ a b, stream.has_next (cursor_at (temp_cursors st) a) = false →
            stream.has_next (cursor_at (temp_cursors st) b) = true →
            cursor_order (temp_cursors st) a b = true
            ∧ cursor_order (temp_cursors st) b a = false)
  ∧ (merge_step (alg := reference_algorithms) st = None →
     ∀ p, stream.has_next (cursor_at (temp_cursors st) p) = false).
Proof.
  intros gam_in runs st0 st.
  assert (Hreach : merge_reaches (alg := reference_algorithms) st0 st).
  { apply rtc_once. vm_compute. reflexivity. }
  split; [exact Hreach|].
  exact (merge_never_picks_exhausted_cursor
           (alg := reference_algorithms) 1 gam_in st Hreach).
Defined.

(** C9 as stated fails on the empty input: the cursor over the one, empty,
    run is pushed on the queue and stays there, without a record. *)
Lemma exhausted_cursor_stays_in_frontier :
  ¬ frontier_all_live
      (merge_init (alg := reference_algorithms)
         (produce_runs (alg := reference_algorithms) 1 [])).
Proof.
  intros Hlive. assert (Hin : 0 ∈ [0]) by constructor.
  apply Hlive in Hin. vm_compute in Hin. discriminate Hin.
Qed.

(** * Further properties of the ordering model *)

(** A position is a minimum of a list of mappings when it is the anchor of
    one of them and no anchor is less than it. *)
Definition is_min_position (p : Position) (l : list Mapping) : Prop :=
  p ∈ position <$> l ∧ ∀ m, m ∈ l → less_than (position m) p = false.

Lemma is_min_position_unique p q l :
  is_min_position p l → is_min_position q l → p = q.
Proof.
  intros [Hp Hpmin] [Hq Hqmin].
  apply list_elem_of_fmap in Hp as (mp & -> & Hmp).
  apply list_elem_of_fmap in Hq as (mq & -> & Hmq).
  apply less_than_antisym; [by apply Hqmin|by apply Hpmin].
Qed.

Lemma get_min_position_is_min m0 rest :
  is_min_position (get_min_position {| mapping := m0 :: rest |}) (m0 :: rest).
Proof.
  unfold get_min_position. cbn [mapping].
  destruct (min_step_fold rest (position m0)) as (Hin & Hle & Hall).
  cbv zeta in *. split.
  - destruct Hin as [->|Hin]; [constructor|by constructor].
  - intros m [->|Hm]%elem_of_cons; [done|by apply Hall].
Qed.

(** X1: [less_than] on Alignments is a strict weak ordering, and two
    alignments are equivalent under it exactly when they have the same
    minimum position, whatever else they carry. *)
Theorem less_than_aln_strict_weak_ordering :
  (∀ a, less_than_aln a a = false)
  ∧ (∀ a b c, less_than_aln a b = true → less_than_aln b c = true →
               less_than_aln a c = true)
  ∧ Equivalence (equiv_under less_than_aln)
  ∧ (∀ a b, equiv_under less_than_aln a b ↔
            get_min_position_aln a = get_min_position_aln b).
Proof.
  pose proof less_than_aln_swo as Hswo.
  split; [apply (swo_irrefl _ Hswo)|]. split; [apply (swo_trans _ Hswo)|].
  split; [split|].
  - intros a. split; apply (swo_irrefl _ Hswo).
  - intros a b [Hab Hba]. by split.
  - intros a b c [Hab Hba] [Hbc Hcb].
    by apply (swo_incomp_trans _ Hswo a b c).
  - intros a b. unfold equiv_under, less_than_aln. split.
    + intros [Hab Hba]. by apply less_than_antisym.
    + intros ->. split; apply less_than_irrefl.
Qed.

(** X2: of [less_than], [equal_to] and [greater_than] exactly one holds of
    any two positions, and [greater_than] is [less_than] with the arguments
    exchanged. *)
Theorem position_trichotomy (a b : Position) :
  greater_than a b = less_than b a
  ∧ ((less_than a b = true ∧ equal_to a b = false ∧ greater_than a b = false)
     ∨ (less_than a b = false ∧ equal_to a b = true ∧ greater_than a b = false)
     ∨ (less_than a b = false ∧ equal_to a b = false ∧ greater_than a b = true)).
Proof.
  split; [apply greater_than_less_than|]. rewrite greater_than_less_than.
  destruct (less_than a b) eqn:Hab, (less_than b a) eqn:Hba,
    (equal_to a b) eqn:Heq; auto.
  - by rewrite (swo_asym _ less_than_swo _ _ Hab) in Hba.
  - by rewrite (swo_asym _ less_than_swo _ _ Hab) in Hba.
  - apply equal_to_eq in Heq as ->. by rewrite less_than_irrefl in Hab.
  - apply equal_to_eq in Heq as ->. by rewrite less_than_irrefl in Hba.
  - rewrite (less_than_antisym _ _ Hab Hba) in Heq.
    assert (equal_to b b = true) by by apply equal_to_eq. congruence.
Qed.

(** X3: the minimum position of a path does not depend on the order of its
    mappings. *)
Theorem get_min_position_permutation (p q : Path) :
  mapping p ≡ₚ mapping q → get_min_position p = get_min_position q.
Proof.
  destruct p as [l], q as [k]. cbn [mapping]. intros Hperm.
  destruct l as [|m0 rest].
  { apply Permutation_nil_l in Hperm. by subst. }
  destruct k as [|k0 krest].
  { by apply Permutation_nil_r in Hperm. }
  apply (is_min_position_unique _ _ (k0 :: krest)); [|apply get_min_position_is_min].
  destruct (get_min_position_is_min m0 rest) as [Hin Hmin]. split.
  - by rewrite <- Hperm.
  - intros m Hm. apply Hmin. by rewrite Hperm.
Qed.

(** X4: the minimum position of two non-empty lists of mappings put together
    is the smaller of their two minimum positions. *)
Theorem get_min_position_app (l1 l2 : list Mapping) :
  l1 ≠ [] → l2 ≠ [] →
  get_min_position {| mapping := l1 ++ l2 |}
  = if less_than (get_min_position {| mapping := l2 |})
         (get_min_position {| mapping := l1 |})
    then get_min_position {| mapping := l2 |}
    else get_min_position {| mapping := l1 |}.
Proof.
  intros H1 H2. destruct l1 as [|m1 r1]; [done|]. destruct l2 as [|m2 r2]; [done|].
  pose proof (get_min_position_is_min m1 r1) as [Hin1 Hmin1].
  pose proof (get_min_position_is_min m2 r2) as [Hin2 Hmin2].
  apply (is_min_position_unique _ _ ((m1 :: r1) ++ m2 :: r2));
    [apply (get_min_position_is_min m1 (r1 ++ m2 :: r2))|].
  pose proof less_than_swo as Hswo.
  destruct (less_than (get_min_position {| mapping := m2 :: r2 |})
              (get_min_position {| mapping := m1 :: r1 |})) eqn:Hlt.
  - split; [rewrite fmap_app, elem_of_app; by right|].
    intros m [Hm|Hm]%elem_of_app; [|by apply Hmin2].
    eapply (swo_neg_trans _ Hswo); [by apply Hmin1|].
    by apply (swo_asym _ Hswo).
  - split; [rewrite fmap_app, elem_of_app; by left|].
    intros m [Hm|Hm]%elem_of_app; [by apply Hmin1|].
    eapply (swo_neg_trans _ Hswo); [by apply Hmin2|done].
Qed.

(** X3 on a path of three mappings and the same mappings reversed. *)
Lemma get_min_position_permutation_witness :
  let l := [ {| position := mkPosition 5 false 10 |};
             {| position := mkPosition 3 true 2 |};
             {| position := mkPosition 5 false 1 |} ] in
  mapping {| mapping := l |} ≡ₚ mapping {| mapping := reverse l |}
  ∧ get_min_position {| mapping := l |}
    = get_min_position {| mapping := reverse l |}.
Proof.
  intros l.
  assert (Hperm : mapping {| mapping := l |} ≡ₚ mapping {| mapping := reverse l |}).
  { cbn [mapping]. by rewrite reverse_Permutation. }
  split; [exact Hperm|].
  exact (get_min_position_permutation _ _ Hperm).
Defined.

(** X4 on a path of one mapping followed by a path of two. *)
Lemma get_min_position_app_witness :
  let l1 := [ {| position := mkPosition 5 false 10 |} ] in
  let l2 := [ {| position := mkPosition 3 true 2 |};
              {| position := mkPosition 5 false 1 |} ] in
  l1 ≠ [] ∧ l2 ≠ []
  ∧ get_min_position {| mapping := l1 ++ l2 |}
    = if less_than (get_min_position {| mapping := l2 |})
           (get_min_position {| mapping := l1 |})
      then get_min_position {| mapping := l2 |}
      else get_min_position {| mapping := l1 |}.
Proof.
  intros l1 l2.
  assert (H1 : l1 ≠ []) by discriminate.
  assert (H2 : l2 ≠ []) by discriminate.
  split; [exact H1|]. split; [exact H2|].
  exact (get_min_position_app l1 l2 H1 H2).
Defined.

(** * Further properties of the two sorts *)

#[local] Instance Position_eq_dec : EqDecision Position.
Proof. solve_decision. Defined.

(** Two sorted arrangements of the same records are the same list when no
    two of the records share a key. *)
Lemma sorted_permutation_unique (l1 l2 : list Alignment) :
  NoDup (get_min_position_aln <$> l1) →
  l1 ≡ₚ l2 → sorted_by less_than_aln l1 → sorted_by less_than_aln l2 →
  l1 = l2.
Proof.
  intros Hnd Hperm Hs1 Hs2.
  apply (StronglySorted_unique_strong (λ a b, less_than_aln b a = false));
    [|done..].
  intros x1 x2 Hx1 Hx2 H12 H21. rewrite <- Hperm in Hx2.
  assert (Hkey : get_min_position_aln x1 = get_min_position_aln x2)
    by by apply less_than_antisym.
  apply list_elem_of_lookup_1 in Hx1 as [i Hi].
  apply list_elem_of_lookup_1 in Hx2 as [j Hj].
  assert (i = j) as ->.
  { eapply (NoDup_lookup _ i j); [exact Hnd| |].
    - by rewrite list_lookup_fmap, Hi.
    - by rewrite list_lookup_fmap, Hj, Hkey. }
  congruence.
Qed.

Section sort_properties.
Context {alg : StdAlgorithms}.

(** X5: [dumb_sort] writes the records of its input, each as often as it
    occurs there, in non-decreasing order of their keys. *)
Theorem dumb_sort_sorted_permutation (gam_in : list Alignment) :
  dumb_sort gam_in ≡ₚ gam_in
  ∧ sorted_by less_than_aln (dumb_sort gam_in)
  ∧ ∀ i j a b, i < j →
      dumb_sort gam_in !! i = Some a → dumb_sort gam_in !! j = Some b →
      less_than (get_min_position_aln b) (get_min_position_aln a) = false.
Proof.
  rewrite dumb_sort_sort. split; [apply sort_permutation|].
  split; [apply sort_sorted|]. intros i j a b Hij Ha Hb.
  exact (StronglySorted_lookup _ _ i j a b (sort_sorted gam_in) Hij Ha Hb).
Qed.

(** X6: on an input that is already in non-decreasing key order, both sorts
    write records whose keys are, index by index, the keys of the input. *)
Theorem sorted_input_keeps_keys (max_buf_size : nat) (gam_in : list Alignment) :
  sorted_by less_than_aln gam_in →
  get_min_position_aln <$> dumb_sort gam_in = get_min_position_aln <$> gam_in
  ∧ ∃ out, stream_sort max_buf_size gam_in = Some out
           ∧ get_min_position_aln <$> out = get_min_position_aln <$> gam_in.
Proof.
  intros Hsorted. split.
  - rewrite dumb_sort_sort. apply sorted_permutation_keys;
      [apply sort_permutation|apply sort_sorted|done].
  - destruct (stream_sort_correct max_buf_size gam_in) as (out & Hout & Hperm & Hs).
    exists out. split; [done|]. by apply sorted_permutation_keys.
Qed.

(** X8: when no two records of the input have the same key, the output of
    [stream_sort] is the output of [dumb_sort], record for record. *)
Theorem distinct_keys_same_output (max_buf_size : nat) (gam_in : list Alignment) :
  NoDup (get_min_position_aln <$> gam_in) →
  stream_sort max_buf_size gam_in = Some (dumb_sort gam_in).
Proof.
  intros Hnd.
  destruct (stream_sort_correct max_buf_size gam_in) as (out & -> & Hperm & Hs).
  f_equal. rewrite dumb_sort_sort. apply sorted_permutation_unique.
  - by rewrite Hperm.
  - by rewrite Hperm, sort_permutation.
  - done.
  - apply sort_sorted.
Qed.

End sort_properties.

(** X7: the sequence of keys [stream_sort] writes is the same for every
    batch size and every implementation of the standard algorithms; only
    the order among records of equal key can differ. *)
Theorem stream_sort_keys_independent (alg1 alg2 : StdAlgorithms)
    (size1 size2 : nat) (gam_in : list Alignment) :
  ∃ out1 out2,
    stream_sort (alg := alg1) size1 gam_in = Some out1
    ∧ stream_sort (alg := alg2) size2 gam_in = Some out2
    ∧ get_min_position_aln <$> out1 = get_min_position_aln <$> out2.
Proof.
  destruct (stream_sort_correct (alg := alg1) size1 gam_in) as (out1 & H1 & Hp1 & Hs1).
  destruct (stream_sort_correct (alg := alg2) size2 gam_in) as (out2 & H2 & Hp2 & Hs2).
  exists out1, out2. split; [done|]. split; [done|].
  apply sorted_permutation_keys; [by rewrite Hp1, Hp2|done..].
Qed.

(** X6 on three records already in key order. *)
Lemma sorted_input_keeps_keys_witness :
  let gam_in := [ unaligned "u"; aligned 3 true 2 "b"; aligned 5 false 1 "c" ] in
  sorted_by less_than_aln gam_in
  ∧ get_min_position_aln <$> dumb_sort (alg := reference_algorithms) gam_in
    = get_min_position_aln <$> gam_in
  ∧ ∃ out, stream_sort (alg := reference_algorithms) 2 gam_in = Some out
           ∧ get_min_position_aln <$> out = get_min_position_aln <$> gam_in.
Proof.
  intros gam_in.
  assert (Hsorted : sorted_by less_than_aln gam_in).
  { repeat constructor. }
  split; [exact Hsorted|].
  exact (sorted_input_keeps_keys (alg := reference_algorithms) 2 gam_in Hsorted).
Defined.

(** X8 on the five sample records, whose keys differ. *)
Lemma distinct_keys_same_output_witness :
  NoDup (get_min_position_aln <$> five_records)
  ∧ stream_sort (alg := reference_algorithms) 2 five_records
    = Some (dumb_sort (alg := reference_algorithms) five_records).
Proof.
  assert (Hnd : NoDup (get_min_position_aln <$> five_records)).
  { apply (bool_decide_unpack _). vm_compute. exact I. }
  split; [exact Hnd|].
  exact (distinct_keys_same_output (alg := reference_algorithms) 2 five_records Hnd).
Defined.

(** * Further properties of run production *)

Section producer_properties.
Context {alg : StdAlgorithms}.

(** With a batch size of zero the size test never fires: everything read
    stays in the buffer and no file is written. *)
Lemma for_each_zero consumed :
  stream.for_each consumed (buffer_alignment 0) producer_init
  = {| input_buffer := consumed; temp_file_names := []; temp_store := [] |}.
Proof.
  induction consumed as [|a l IH] using rev_ind; [done|].
  rewrite for_each_snoc, IH. unfold buffer_alignment.
  cbn [input_buffer temp_file_names temp_store].
  rewrite length_app, Nat.add_1_r. done.
Qed.

(** While the input is read, file [i] holds the [i]-th batch of
    [max_buf_size] consecutive records and the buffer holds the records read
    since the last file, in arrival order. *)
Lemma for_each_batches B consumed :
  1 ≤ B →
  let st := stream.for_each consumed (buffer_alignment B) producer_init in
  (∀ i run, temp_store st !! i = Some run →
            run ≡ₚ take B (drop (i * B) consumed))
  ∧ input_buffer st = drop (length (temp_store st) * B) consumed.
Proof.
  intros HB. induction consumed as [|a l IH] using rev_ind.
  { cbn. split; [|done]. intros i run Hi. by rewrite lookup_nil in Hi. }
  cbv zeta in *. rewrite for_each_snoc.
  pose proof (for_each_inv B l) as [Hnames _ _].
  destruct (for_each_count B l HB) as [Hlen Hlt]. cbv zeta in Hlen, Hlt.
  destruct IH as [Hruns Hbuf].
  set (st := stream.for_each l (buffer_alignment B) producer_init) in *.
  rewrite Hnames, length_seq in Hlen.
  assert (Hold : ∀ i run, temp_store st !! i = Some run →
                          run ≡ₚ take B (drop (i * B) (l ++ [a]))).
  { intros i run Hi. pose proof (lookup_lt_Some _ _ _ Hi) as Hik.
    rewrite drop_app_le by nia. rewrite take_app_le; [by apply Hruns|].
    rewrite length_drop. nia. }
  assert (Hnew : input_buffer st ++ [a]
                 = drop (length (temp_store st) * B) (l ++ [a])).
  { rewrite drop_app_le by lia. by rewrite Hbuf. }
  unfold buffer_alignment. cbn [input_buffer temp_file_names temp_store].
  rewrite length_app, Nat.add_1_r.
  destruct (Nat.eqb_spec (S (length (input_buffer st))) B) as [Heq|Hne].
  - rewrite finish_buffer_unfold by done.
    cbn [input_buffer temp_file_names temp_store]. split.
    + intros i run [Hi|[Hi Hrun]]%lookup_app_Some; [by apply Hold|].
      apply list_lookup_singleton_Some in Hrun as [Hi0 <-].
      assert (i = length (temp_store st)) as -> by lia.
      rewrite sort_permutation, Hnew. rewrite take_ge; [done|].
      rewrite length_drop, length_app. simpl. lia.
    + rewrite length_app. simpl. rewrite drop_ge; [done|].
      rewrite length_app. simpl. nia.
  - cbn [input_buffer temp_file_names temp_store]. by split.
Qed.

(** X9: with a batch size of at least one, the [i]-th run is sorted and
    holds exactly the records of the [i]-th batch of [max_buf_size]
    consecutive input records (the last batch being what is left). *)
Theorem produce_runs_batches (max_buf_size : nat) (gam_in : list Alignment)
    (i : nat) (run : list Alignment) :
  1 ≤ max_buf_size →
  temp_store (produce_runs max_buf_size gam_in) !! i = Some run →
  sorted_by less_than_aln run
  ∧ run ≡ₚ take max_buf_size (drop (i * max_buf_size) gam_in).
Proof.
  intros HB Hi. split.
  { pose proof (pinv_sorted _ _ (produce_runs_inv max_buf_size gam_in)) as Hs.
    rewrite Forall_lookup in Hs. by eapply Hs. }
  unfold produce_runs in Hi.
  pose proof (for_each_inv max_buf_size gam_in) as [Hnames _ _].
  destruct (for_each_count max_buf_size gam_in HB) as [Hlen Hlt].
  destruct (for_each_batches max_buf_size gam_in HB) as [Hruns Hbuf].
  cbv zeta in *.
  set (st := stream.for_each gam_in (buffer_alignment max_buf_size) producer_init) in *.
  rewrite finish_buffer_unfold in Hi by done. cbn [temp_store] in Hi.
  apply lookup_app_Some in Hi as [Hi|[Hi Hrun]]; [by apply Hruns|].
  apply list_lookup_singleton_Some in Hrun as [Hi0 <-].
  assert (i = length (temp_store st)) as -> by lia.
  rewrite sort_permutation, Hbuf. rewrite take_ge; [done|].
  rewrite <- Hbuf. lia.
Qed.

(** X11: with a batch size of at least one, after any number [n] of records
    read, [n / max_buf_size] files are written and the buffer holds the last
    [n mod max_buf_size] records read, in arrival order; it never holds
    [max_buf_size] records or more. *)
Theorem buffer_after_reading (max_buf_size : nat) (consumed : list Alignment) :
  1 ≤ max_buf_size →
  let st := stream.for_each consumed (buffer_alignment max_buf_size) producer_init in
  length (temp_store st) = length consumed / max_buf_size
  ∧ input_buffer st
    = drop (length consumed / max_buf_size * max_buf_size) consumed
  ∧ length (input_buffer st) = length consumed mod max_buf_size
  ∧ length (input_buffer st) < max_buf_size.
Proof.
  intros HB.
  pose proof (for_each_inv max_buf_size consumed) as [Hnames _ _].
  destruct (for_each_count max_buf_size consumed HB) as [Hlen Hlt].
  destruct (for_each_batches max_buf_size consumed HB) as [_ Hbuf].
  cbv zeta in *.
  set (st := stream.for_each consumed (buffer_alignment max_buf_size) producer_init) in *.
  rewrite Hnames, length_seq in Hlen.
  assert (Hdiv : length (temp_store st) = length consumed / max_buf_size).
  { apply (Nat.div_unique _ _ _ (length (input_buffer st))); lia. }
  split; [done|]. split; [by rewrite <- Hdiv|]. split; [|done].
  apply (Nat.mod_unique _ _ (length (temp_store st))); lia.
Qed.

(** When the whole input fits one batch (or the batch size is zero, which
    turns batching off) there is one run, the sorted input. *)
Lemma produce_runs_single_batch B gam_in :
  B = 0 ∨ length gam_in < B →
  produce_runs B gam_in
  = {| input_buffer := []; temp_file_names := [0];
       temp_store := [sort gam_in] |}.
Proof.
  intros [->|Hlt]; unfold produce_runs.
  { by rewrite for_each_zero. }
  assert (HB : 1 ≤ B) by lia.
  pose proof (for_each_inv B gam_in) as [Hnames _ _].
  destruct (for_each_count B gam_in HB) as [Hlen Hlt'].
  destruct (for_each_batches B gam_in HB) as [_ Hbuf]. cbv zeta in *.
  set (st := stream.for_each gam_in (buffer_alignment B) producer_init) in *.
  rewrite Hnames, length_seq in Hlen.
  assert (Hk : length (temp_store st) = 0) by nia.
  apply nil_length_inv in Hk as Hstore. rewrite Hk in Hbuf. simpl in Hbuf.
  rewrite finish_buffer_unfold by done. by rewrite Hstore, Hbuf.
Qed.

End producer_properties.

(** * Further properties of the merge *)

(** The state of the first phase when the runs are supplied as they are:
    file [i] holds run [i]. *)
Definition supplied_runs (runs : list (list Alignment)) : producer_state :=
  {| input_buffer := [];
     temp_file_names := seq 0 (length runs);
     temp_store := runs |}.

(** What the merge loop keeps for any runs, sorted or not: the queue is a
    heap of distinct, valid cursor addresses holding every cursor that has
    a record; there is one cursor per run; each run is the records already
    taken from it, which appear in that order among the records written,
    followed by what its cursor still holds; nothing is lost. *)
Record merge_wf (runs : list (list Alignment)) (st : merge_state) : Prop :=
  { wf_heap : is_heap (cursor_order (temp_cursors st)) (temp_files st);
    wf_nodup : NoDup (temp_files st);
    wf_live : ∀ p, stream.has_next (cursor_at (temp_cursors st) p) = true →
                   p ∈ temp_files st;
    wf_range : ∀ p, p ∈ temp_files st → p < length (temp_cursors st);
    wf_length : length (temp_cursors st) = length runs;
    wf_runs : ∀ p run, runs !! p = Some run →
                ∃ taken, run = taken ++ cursor_at (temp_cursors st) p
                         ∧ taken `sublist_of` emitted st;
    wf_records : emitted st ++ concat (temp_cursors st) ≡ₚ concat runs }.

Lemma sublist_same_length {A : Type} (l1 l2 : list A) :
  l1 `sublist_of` l2 → length l2 ≤ length l1 → l1 = l2.
Proof.
  induction 1 as [|x l1 l2 Hsub IH|x l1 l2 Hsub IH]; simpl; intros Hlen.
  - done.
  - f_equal. apply IH. lia.
  - apply sublist_length in Hsub. lia.
Qed.

Section merge_properties_any_runs.
Context {alg : StdAlgorithms}.

Lemma merge_step_wf runs st st' :
  merge_wf runs st → merge_step st = Some st' → merge_wf runs st'.
Proof.
  intros Hwf Hstep.
  pose proof (merge_step_inv _ _ Hstep) as (w & c & r & rest & Hq & Hw & Hc & Hf & He).
  pose proof (lookup_lt_Some _ _ _ Hw) as Hlt.
  pose proof (concat_advance _ _ _ _ Hw) as Hadv.
  pose proof (wf_heap _ _ Hwf) as Hheap. pose proof (wf_nodup _ _ Hwf) as Hnd.
  rewrite Hq in Hheap, Hnd. apply NoDup_cons in Hnd as [Hwc Hndc].
  destruct (pq_pop_spec _ _ _ (cursor_order_swo _) Hheap) as [Hpop Hpopheap].
  cbv zeta in Hf. set (popped := priority_queue.pop _ _) in *.
  assert (Hheap' : is_heap (cursor_order (temp_cursors st')) popped).
  { eapply cursor_order_ext; [|exact Hpopheap]. intros p Hp. rewrite Hc.
    apply cursor_at_insert_ne. intros ->. by rewrite Hpop in Hp. }
  assert (Hqueue : is_heap (cursor_order (temp_cursors st')) (temp_files st')
                   ∧ NoDup (temp_files st')
                   ∧ ∀ p, p ∈ temp_files st' ↔
                          p ∈ c ∨ (p = w ∧ stream.has_next rest = true)).
  { rewrite Hf. destruct (stream.has_next rest).
    - destruct (pq_push_spec _ w _ (cursor_order_swo (temp_cursors st')) Hheap')
        as [Hpush Hpushheap].
      split; [done|]. split.
      + rewrite Hpush, Hpop. by constructor.
      + intros p. rewrite Hpush, Hpop, elem_of_cons. tauto.
    - split; [done|]. split; [by rewrite Hpop|].
      intros p. rewrite Hpop. split; [tauto|]. by intros [?|[_ ?]]. }
  destruct Hqueue as (Hh & Hn & Hin). split; try done.
  - intros p Hp. apply Hin. rewrite Hc in Hp.
    destruct (decide (p = w)) as [->|Hne].
    + right. by rewrite cursor_at_insert_eq in Hp.
    + left. rewrite cursor_at_insert_ne in Hp by done.
      apply (wf_live _ _ Hwf) in Hp. rewrite Hq in Hp.
      by apply elem_of_cons in Hp as [?|?].
  - intros p Hp. rewrite Hc, length_insert.
    destruct (proj1 (Hin p) Hp) as [Hpc|[-> _]]; [|done].
    apply (wf_range _ _ Hwf). rewrite Hq. by constructor.
  - rewrite Hc, length_insert. apply (wf_length _ _ Hwf).
  - intros p run Hrun. destruct (wf_runs _ _ Hwf p run Hrun) as (taken & Hsplit & Hsub).
    rewrite Hc, He. destruct (decide (p = w)) as [->|Hne].
    + rewrite cursor_at_insert_eq by done. exists (taken ++ [r]). split.
      * rewrite Hsplit. unfold cursor_at. rewrite Hw. simpl.
        by rewrite <- app_assoc.
      * by apply sublist_app.
    + rewrite cursor_at_insert_ne by done. exists taken. split; [done|].
      by apply sublist_inserts_r.
  - rewrite He, Hc, <- app_assoc. simpl. rewrite <- Hadv.
    apply (wf_records _ _ Hwf).
Qed.

Lemma merge_init_wf runs : merge_wf runs (merge_init (supplied_runs runs)).
Proof.
  unfold merge_init, supplied_runs. cbn [temp_store temp_file_names].
  destruct (open_temp_files_spec runs (length runs)) as (Hcur & Hperm & Hheap);
    [done|].
  destruct (fold_left _ _ _) as [cursors queue]. cbn [fst snd] in *.
  rewrite firstn_all in Hcur, Hheap. subst cursors.
  split; cbn [temp_cursors temp_files]; unfold emitted;
    cbn [temp_cursors temp_files gam_out output_buffer app].
  - done.
  - rewrite Hperm. apply NoDup_seq.
  - intros q (r & rest & Hq)%has_next_lookup. rewrite Hperm.
    apply elem_of_seq. apply lookup_lt_Some in Hq. lia.
  - intros p Hp. rewrite Hperm in Hp. apply elem_of_seq in Hp. lia.
  - done.
  - intros p run Hrun. exists []. split; [|done].
    unfold cursor_at. by rewrite Hrun.
  - done.
Qed.

Lemma merge_reaches_wf runs st st' :
  merge_reaches st st' → merge_wf runs st → merge_wf runs st'.
Proof.
  induction 1 as [|s1 s2 s3 Hstep _ IH]; [done|].
  intros Hwf. by apply IH, (merge_step_wf _ s1).
Qed.

Lemma merge_done_wf runs st :
  merge_wf runs st → merge_step st = None → concat (temp_cursors st) = [].
Proof.
  intros Hwf Hstep. apply concat_nil_has_next. intros p.
  destruct (stream.has_next (cursor_at (temp_cursors st) p)) eqn:Hp; [|done].
  exfalso. pose proof (wf_live _ _ Hwf p Hp) as Hin.
  unfold merge_step, merge_guard in Hstep.
  destruct (temp_files st) as [|top c] eqn:Hq; [by apply elem_of_nil in Hin|].
  cbn [priority_queue.empty priority_queue.top head] in Hstep.
  destruct (stream.has_next (cursor_at (temp_cursors st) top)) eqn:Htop.
  - unfold merge_body in Hstep.
    destruct (cursor_at (temp_cursors st) top) as [|r rest]; [done|].
    cbn [stream.deref head] in Hstep.
    by destruct (stream.write_buffered _ _ _).
  - pose proof (is_heap_root_max _ _ top (cursor_order_swo _)
                  (wf_heap _ _ Hwf)) as Hmax.
    rewrite Hq in Hmax. specialize (Hmax eq_refl p Hin).
    unfold cursor_order in Hmax. by rewrite Hp, Htop in Hmax.
Qed.

(** What [merge_loop] returns is the state the iterations lead to, and the
    guard fails there. *)
Lemma merge_loop_reaches fuel st st' :
  merge_loop fuel st = Some st' →
  merge_reaches st st' ∧ merge_step st' = None.
Proof.
  revert st. induction fuel as [|fuel IH]; intros st; simpl.
  - destruct (merge_step st) eqn:Hstep; [done|].
    intros [= <-]. split; [apply rtc_refl|done].
  - destruct (merge_step st) as [st1|] eqn:Hstep.
    + intros Hloop. destruct (IH _ Hloop) as [Hreach Hend].
      split; [|done]. by eapply rtc_l.
    + intros [= <-]. split; [apply rtc_refl|done].
Qed.

(** The loop needs exactly one iteration for each record left. *)
Lemma merge_loop_fuel runs fuel st :
  merge_wf runs st →
  (records_left st ≤ fuel →
   ∃ st', merge_loop fuel st = Some st')
  ∧ (fuel < records_left st → merge_loop fuel st = None).
Proof.
  revert st. induction fuel as [|fuel IH]; intros st Hwf; simpl.
  - destruct (merge_step st) as [st'|] eqn:Hstep.
    + apply merge_step_records_left in Hstep. split; [lia|done].
    + pose proof (merge_done_wf _ _ Hwf Hstep) as Hnil.
      unfold records_left. rewrite Hnil. simpl. split; [by eauto|lia].
  - destruct (merge_step st) as [st'|] eqn:Hstep.
    + pose proof (merge_step_records_left _ _ Hstep) as Hleft.
      destruct (IH st' (merge_step_wf _ _ _ Hwf Hstep)) as [Hge Hlt].
      split; intros ?; [apply Hge|apply Hlt]; lia.
    + pose proof (merge_done_wf _ _ Hwf Hstep) as Hnil.
      unfold records_left. rewrite Hnil. simpl. split; [by eauto|lia].
Qed.

(** The merge of any runs ends, in a state that keeps [merge_wf] and has no
    record left. *)
Lemma merge_runs_wf runs :
  ∃ st, merge_loop (records_left (merge_init (supplied_runs runs)))
          (merge_init (supplied_runs runs)) = Some st
        ∧ merge_runs (supplied_runs runs) = Some (emitted st)
        ∧ merge_reaches (merge_init (supplied_runs runs)) st
        ∧ merge_wf runs st
        ∧ concat (temp_cursors st) = [].
Proof.
  pose proof (merge_init_wf runs) as Hinit.
  destruct (proj1 (merge_loop_fuel runs _ _ Hinit) (le_n _)) as [st Hloop].
  destruct (merge_loop_reaches _ _ _ Hloop) as [Hreach Hend].
  pose proof (merge_reaches_wf _ _ _ Hreach Hinit) as Hwf.
  exists st. split; [done|]. split.
  { unfold merge_runs. rewrite Hloop. by rewrite write_buffered_flush. }
  split; [done|]. split; [done|]. by eapply merge_done_wf.
Qed.

(** The first phase leaves exactly the state [supplied_runs] describes. *)
Lemma produce_runs_supplied B gam_in :
  produce_runs B gam_in = supplied_runs (temp_store (produce_runs B gam_in)).
Proof.
  pose proof (produce_runs_inv B gam_in) as [Hnames _ _].
  pose proof (produce_runs_buffer B gam_in) as Hbuf.
  destruct (produce_runs B gam_in) as [buf names store].
  unfold supplied_runs. cbn [input_buffer temp_file_names temp_store] in *.
  by subst.
Qed.

End merge_properties_any_runs.

Lemma StronglySorted_sublist {A : Type} (R : A → A → Prop) (l1 l2 : list A) :
  l1 `sublist_of` l2 → StronglySorted R l2 → StronglySorted R l1.
Proof.
  induction 1 as [|x l1 l2 Hsub IH|x l1 l2 Hsub IH]; intros Hs.
  - constructor.
  - apply StronglySorted_cons in Hs as [Hall Hs].
    apply StronglySorted_cons. split; [|by apply IH].
    rewrite Forall_forall in *. intros y Hy. apply Hall.
    by apply (sublist_subseteq _ _ Hsub).
  - apply StronglySorted_cons in Hs as [_ Hs]. by apply IH.
Qed.

Section merge_theorems.
Context {alg : StdAlgorithms}.

(** The steps are those of a function: a state the loop passes through
    leads on to the state where the loop ends. *)
Lemma merge_reaches_end st st1 st2 :
  merge_reaches st st1 → merge_reaches st st2 → merge_step st2 = None →
  merge_reaches st1 st2.
Proof.
  intros H1. revert st2. induction H1 as [|s1 s2 s3 Hstep _ IH]; [done|].
  intros st2 H2 Hend. apply IH; [|done].
  apply rtc_inv in H2 as [->|(s2' & Hstep' & H2)]; [congruence|].
  unfold merge_reaches. congruence.
Qed.

Lemma merge_reaches_prefix st st' :
  merge_reaches st st' → emitted st `prefix_of` emitted st'.
Proof.
  induction 1 as [|s1 s2 s3 Hstep _ IH]; [done|].
  apply merge_step_inv in Hstep as (w & c & r & rest & _ & _ & _ & _ & He).
  etrans; [|exact IH]. rewrite He. by apply prefix_app_r.
Qed.

(** X12: the merge of any runs ends and writes the records of the runs,
    each as often as it occurs there; what it writes is in non-decreasing
    key order exactly when every run is. *)
Theorem merge_runs_any_runs (runs : list (list Alignment)) :
  ∃ out, merge_runs (supplied_runs runs) = Some out
         ∧ out ≡ₚ concat runs
         ∧ (sorted_by less_than_aln out ↔
            Forall (sorted_by less_than_aln) runs).
Proof.
  destruct (merge_runs_wf runs) as (st & Hloop & Hout & Hreach & Hwf & Hnil).
  exists (emitted st). split; [done|].
  pose proof (wf_records _ _ Hwf) as Hrec. rewrite Hnil, app_nil_r in Hrec.
  split; [done|]. split.
  - intros Hsorted. apply Forall_lookup. intros p run Hrun.
    destruct (wf_runs _ _ Hwf p run Hrun) as (taken & -> & Hsub).
    assert (Hcur : cursor_at (temp_cursors st) p = []).
    { destruct (cursor_at (temp_cursors st) p) as [|r rest] eqn:Hc; [done|].
      exfalso. unfold cursor_at in Hc.
      destruct (temp_cursors st !! p) as [cur|] eqn:Hp; [|done].
      simpl in Hc. subst cur.
      assert (r ∈ concat (temp_cursors st)) as Hin.
      { apply elem_of_concat. exists p, (r :: rest). split; [done|constructor]. }
      rewrite Hnil in Hin. by apply elem_of_nil in Hin. }
    rewrite Hcur, app_nil_r. by eapply StronglySorted_sublist.
  - intros Hsorted.
    assert (Hprod : producer_inv (concat runs) (supplied_runs runs)).
    { split; cbn [supplied_runs temp_file_names temp_store input_buffer];
        [done..|by rewrite app_nil_r]. }
    pose proof (merge_init_inv _ _ Hprod eq_refl) as Hinit.
    apply (minv_sorted (concat runs)).
    by apply (merge_reaches_inv _ _ _ Hreach).
Qed.

(** X13: the merge never reorders the records of one run: every run is a
    subsequence of the output, whether the runs are sorted or not. *)
Theorem merge_keeps_run_order (runs : list (list Alignment)) :
  ∃ out, merge_runs (supplied_runs runs) = Some out
         ∧ ∀ run, run ∈ runs → run `sublist_of` out.
Proof.
  destruct (merge_runs_wf runs) as (st & Hloop & Hout & Hreach & Hwf & Hnil).
  exists (emitted st). split; [done|].
  intros run [p Hrun]%list_elem_of_lookup_1.
  destruct (wf_runs _ _ Hwf p run Hrun) as (taken & -> & Hsub).
  destruct (cursor_at (temp_cursors st) p) as [|r rest] eqn:Hc;
    [by rewrite app_nil_r|].
  exfalso. unfold cursor_at in Hc.
  destruct (temp_cursors st !! p) as [cur|] eqn:Hp; [|done].
  simpl in Hc. subst cur.
  assert (r ∈ concat (temp_cursors st)) as Hin.
  { apply elem_of_concat. exists p, (r :: rest). split; [done|constructor]. }
  rewrite Hnil in Hin. by apply elem_of_nil in Hin.
Qed.

(** X10: when the batch size is zero, or the input is shorter than the batch
    size, there is a single run, and [stream_sort] writes exactly what
    [dumb_sort] writes. *)
Theorem single_batch_same_as_dumb_sort
    (max_buf_size : nat) (gam_in : list Alignment) :
  max_buf_size = 0 ∨ length gam_in < max_buf_size →
  temp_store (produce_runs max_buf_size gam_in) = [sort gam_in]
  ∧ stream_sort max_buf_size gam_in = Some (dumb_sort gam_in).
Proof.
  intros Hsingle.
  pose proof (produce_runs_single_batch _ _ Hsingle) as Hruns.
  split; [by rewrite Hruns|].
  unfold stream_sort. rewrite Hruns, dumb_sort_sort.
  change {| input_buffer := []; temp_file_names := [0];
            temp_store := [sort gam_in] |}
    with (supplied_runs [sort gam_in]).
  destruct (merge_runs_wf [sort gam_in]) as (st & Hloop & Hout & Hreach & Hwf & Hnil).
  rewrite Hout. f_equal.
  pose proof (wf_records _ _ Hwf) as Hrec.
  rewrite Hnil, app_nil_r in Hrec. simpl in Hrec. rewrite app_nil_r in Hrec.
  destruct (wf_runs _ _ Hwf 0 (sort gam_in) eq_refl) as (taken & Hsplit & Hsub).
  symmetry. apply sublist_same_length.
  - rewrite Hsplit.
    assert (Hcur : cursor_at (temp_cursors st) 0 = []).
    { pose proof (wf_length _ _ Hwf) as Hlen. simpl in Hlen.
      destruct (temp_cursors st) as [|cur [|? ?]]; try done.
      simpl in Hnil. rewrite app_nil_r in Hnil. by subst. }
    by rewrite Hcur, app_nil_r.
  - by rewrite Hrec.
Qed.

(** X14: the merge loop of [stream_sort] runs exactly one iteration for each
    record of the input: with fewer iterations allowed it has not ended, and
    with that many it ends having written every record. *)
Theorem merge_iterations_exact
    (max_buf_size : nat) (gam_in : list Alignment) (fuel : nat) :
  records_left (merge_init (produce_runs max_buf_size gam_in)) = length gam_in
  ∧ (merge_loop fuel (merge_init (produce_runs max_buf_size gam_in)) = None ↔
     fuel < length gam_in).
Proof.
  pose proof (produce_runs_inv max_buf_size gam_in) as Hprod.
  pose proof (merge_init_inv gam_in _ Hprod
                (produce_runs_buffer max_buf_size gam_in)) as Hinit.
  assert (Hleft : records_left (merge_init (produce_runs max_buf_size gam_in))
                  = length gam_in).
  { pose proof (minv_records _ _ Hinit) as Hrec.
    assert (Hinit_emitted : emitted (merge_init (produce_runs max_buf_size gam_in)) = []).
    { unfold merge_init. by destruct (fold_left _ _ _). }
    rewrite Hinit_emitted in Hrec. simpl in Hrec.
    unfold records_left. by apply Permutation_length. }
  split; [done|].
  rewrite produce_runs_supplied in Hleft |- *.
  destruct (merge_loop_fuel _ fuel _
              (merge_init_wf (temp_store (produce_runs max_buf_size gam_in))))
    as [Hge Hlt].
  rewrite Hleft in Hge, Hlt. split; [|done].
  intros Hnone. destruct (decide (fuel < length gam_in)) as [|Hnlt]; [done|].
  destruct Hge as [st Hst]; [lia|]. congruence.
Qed.

End merge_theorems.

(** * Further properties of the merge loop of [stream_sort] *)

Section merge_loop_theorems.
Context {alg : StdAlgorithms}.

(** An iteration flushes the buffer exactly when the record it adds is the
    thousandth. *)
Lemma merge_step_flush st st' :
  merge_step st = Some st' →
  length (output_buffer st) < 1000 →
  (∃ k, length (gam_out st) = k * 1000) →
  length (output_buffer st') < 1000
  ∧ ∃ k, length (gam_out st') = k * 1000.
Proof.
  unfold merge_step, merge_guard. destruct st as [cursors queue buffer out].
  cbn [temp_cursors temp_files output_buffer gam_out].
  destruct queue as [|winner c]; [done|].
  cbn [priority_queue.empty priority_queue.top head].
  destruct (stream.has_next (cursor_at cursors winner)) eqn:Hnext; [|done].
  apply has_next_lookup in Hnext as (r & rest & Hw).
  unfold merge_body. cbn [temp_cursors temp_files output_buffer gam_out].
  assert (Hat : cursor_at cursors winner = r :: rest).
  { unfold cursor_at. by rewrite Hw. }
  rewrite Hat. cbn [stream.deref head stream.get_next tail].
  unfold stream.write_buffered.
  destruct (Nat.leb_spec 1000 (length (buffer ++ [r]))) as [Hfull|Hroom];
    intros [= <-] Hbuf [k Hk]; cbn [output_buffer gam_out];
    rewrite length_app in *; cbn [length] in *.
  - split; [lia|]. exists (S k). rewrite !length_app. cbn [length]. lia.
  - split; [lia|]. by exists k.
Qed.

(** X15: in every state the merge loop passes through, the records written
    so far are flushed to the output in whole groups of a thousand: the
    buffer holds the count modulo 1000 and never a thousand records. *)
Theorem output_flushed_in_thousands
    (max_buf_size : nat) (gam_in : list Alignment) (st : merge_state) :
  merge_reaches (merge_init (produce_runs max_buf_size gam_in)) st →
  length (output_buffer st) = length (emitted st) mod 1000
  ∧ length (gam_out st) = length (emitted st) / 1000 * 1000.
Proof.
  intros Hreach.
  assert (Hinv : length (output_buffer st) < 1000
                 ∧ ∃ k, length (gam_out st) = k * 1000).
  { unfold merge_reaches in Hreach. revert st Hreach.
    apply (rtc_ind_r (λ st, length (output_buffer st) < 1000
                            ∧ ∃ k, length (gam_out st) = k * 1000)).
    - unfold merge_init. destruct (fold_left _ _ _).
      cbn [output_buffer gam_out length]. split; [lia|]. by exists 0.
    - intros s2 s3 _ Hstep [Hbuf Hout]. by eapply merge_step_flush. }
  destruct Hinv as [Hbuf [k Hk]]. unfold emitted. rewrite length_app, Hk.
  split.
  - apply (Nat.mod_unique _ _ k); lia.
  - f_equal. apply (Nat.div_unique _ _ _ (length (output_buffer st))); lia.
Qed.

(** X16: in every state the merge loop passes through, the queue holds
    distinct addresses of existing cursors, there is one cursor per run, and
    each cursor holds a suffix of its run: cursors only move forward. *)
Theorem merge_frontier_valid
    (max_buf_size : nat) (gam_in : list Alignment) (st : merge_state) :
  merge_reaches (merge_init (produce_runs max_buf_size gam_in)) st →
  NoDup (temp_files st)
  ∧ (∀ p, p ∈ temp_files st → p < length (temp_cursors st))
  ∧ length (temp_cursors st)
    = length (temp_store (produce_runs max_buf_size gam_in))
  ∧ ∀ p run, temp_store (produce_runs max_buf_size gam_in) !! p = Some run →
             cursor_at (temp_cursors st) p `suffix_of` run.
Proof.
  rewrite produce_runs_supplied at 1. intros Hreach.
  pose proof (merge_reaches_wf _ _ _ Hreach (merge_init_wf _)) as Hwf.
  split; [apply (wf_nodup _ _ Hwf)|]. split; [apply (wf_range _ _ Hwf)|].
  split; [apply (wf_length _ _ Hwf)|].
  intros p run Hrun. destruct (wf_runs _ _ Hwf p run Hrun) as (taken & -> & _).
  by exists taken.
Qed.

(** X17: what the merge loop has written in any state it passes through is
    a prefix of the final output: a record once written is never taken
    back or moved. *)
Theorem emitted_prefix_of_output
    (max_buf_size : nat) (gam_in : list Alignment) (st : merge_state) :
  merge_reaches (merge_init (produce_runs max_buf_size gam_in)) st →
  ∃ out, stream_sort max_buf_size gam_in = Some out
         ∧ emitted st `prefix_of` out.
Proof.
  unfold stream_sort. rewrite produce_runs_supplied. intros Hreach.
  destruct (merge_runs_wf (temp_store (produce_runs max_buf_size gam_in)))
    as (final & Hloop & Hout & Hfinal & Hwf & Hnil).
  exists (emitted final). split; [done|].
  apply merge_reaches_prefix.
  destruct (merge_loop_reaches _ _ _ Hloop) as [_ Hend].
  by eapply merge_reaches_end.
Qed.

(** X19: the record an iteration of the merge loop writes is a least one
    among all the records the cursors still hold, and no record written
    before it is greater. *)
Theorem winner_record_is_least
    (max_buf_size : nat) (gam_in : list Alignment) (st st' : merge_state) :
  merge_reaches (merge_init (produce_runs max_buf_size gam_in)) st →
  merge_step st = Some st' →
  ∃ aln, emitted st' = emitted st ++ [aln]
         ∧ aln ∈ concat (temp_cursors st)
         ∧ (∀ r, r ∈ concat (temp_cursors st) → less_than_aln r aln = false)
         ∧ (∀ e, e ∈ emitted st → less_than_aln aln e = false).
Proof.
  intros Hreach Hstep.
  pose proof (produce_runs_inv max_buf_size gam_in) as Hprod.
  pose proof (merge_init_inv gam_in _ Hprod
                (produce_runs_buffer max_buf_size gam_in)) as Hinit.
  pose proof (merge_reaches_inv _ _ _ Hreach Hinit) as Hinv.
  pose proof (merge_step_inv _ _ Hstep) as (w & c & r & rest & Hq & Hw & _ & _ & He).
  assert (Hin : r ∈ concat (temp_cursors st)).
  { apply elem_of_concat. exists w, (r :: rest). split; [done|constructor]. }
  exists r. split; [done|]. split; [done|]. split.
  - by eapply winner_least.
  - intros e He'. by apply (minv_bound _ _ Hinv).
Qed.

End merge_loop_theorems.

(** X18: whatever the cursors hold, [cursor_order] is a strict weak
    ordering of their addresses, as the priority queue requires of its
    comparator; under it two cursors are equivalent exactly when both are
    exhausted or both have current records of equivalent keys. *)
Theorem cursor_order_strict_weak_ordering (cursors : list stream.cursor_t) :
  (∀ a, cursor_order cursors a a = false)
  ∧ (∀ a b c, cursor_order cursors a b = true → cursor_order cursors b c = true →
               cursor_order cursors a c = true)
  ∧ Equivalence (equiv_under (cursor_order cursors))
  ∧ (∀ a b, equiv_under (cursor_order cursors) a b ↔
       match stream.deref (cursor_at cursors a),
             stream.deref (cursor_at cursors b) with
       | Some ra, Some rb => equiv_under less_than_aln ra rb
       | None, None => True
       | _, _ => False
       end).
Proof.
  pose proof (cursor_order_swo cursors) as Hswo.
  split; [apply (swo_irrefl _ Hswo)|]. split; [apply (swo_trans _ Hswo)|].
  split; [split|].
  - intros a. split; apply (swo_irrefl _ Hswo).
  - intros a b [Hab Hba]. by split.
  - intros a b c [Hab Hba] [Hbc Hcb].
    by apply (swo_incomp_trans _ Hswo a b c).
  - intros a b. unfold equiv_under. rewrite !cursor_order_cases.
    destruct (stream.deref (cursor_at cursors a)),
      (stream.deref (cursor_at cursors b)); intuition congruence.
Qed.

(** * The further properties on the reference implementation *)

(** Two thousand five hundred records through the merge loop: two groups of
    a thousand are flushed and five hundred wait for the final flush. *)
Example flush_after_2500_records :
  (λ st, (length (gam_out st), length (output_buffer st)))
    <$> merge_loop (alg := reference_algorithms) 2500
          (merge_init (alg := reference_algorithms)
             (produce_runs (alg := reference_algorithms) 0
                (replicate 2500 (unaligned "u"))))
  = Some (2000, 500).
Proof. vm_compute. reflexivity. Qed.

(** An unsorted run comes out as it went in. *)
Example unsorted_run_unsorted_output :
  names_of (merge_runs (alg := reference_algorithms)
              (supplied_runs [[aligned 5 false 10 "a"; aligned 3 true 2 "b"];
                              [aligned 4 false 0 "c"]]))
  = Some ["c"; "a"; "b"].
Proof. vm_compute. reflexivity. Qed.

(** X9 at [max_buf_size = 2], five records and the second run. *)
Lemma produce_runs_batches_witness :
  let store := temp_store (produce_runs (alg := reference_algorithms) 2 five_records) in
  let run := default [] (store !! 1) in
  1 ≤ 2
  ∧ store !! 1 = Some run
  ∧ sorted_by less_than_aln run
  ∧ run ≡ₚ take 2 (drop (1 * 2) five_records).
Proof.
  intros store run.
  assert (HB : 1 ≤ 2) by lia.
  assert (Hrun : store !! 1 = Some run) by (vm_compute; reflexivity).
  split; [exact HB|]. split; [exact Hrun|].
  exact (produce_runs_batches (alg := reference_algorithms) 2 five_records 1 run HB Hrun).
Defined.

(** X10 at [max_buf_size = 7] and five records. *)
Lemma single_batch_same_as_dumb_sort_witness :
  (7 = 0 ∨ length five_records < 7)
  ∧ temp_store (produce_runs (alg := reference_algorithms) 7 five_records)
    = [sort (alg := reference_algorithms) five_records]
  ∧ stream_sort (alg := reference_algorithms) 7 five_records
    = Some (dumb_sort (alg := reference_algorithms) five_records).
Proof.
  assert (Hsingle : 7 = 0 ∨ length five_records < 7).
  { right. vm_compute. lia. }
  split; [exact Hsingle|].
  exact (single_batch_same_as_dumb_sort (alg := reference_algorithms) 7 five_records Hsingle).
Defined.

(** X11 at [max_buf_size = 2] after five records. *)
Lemma buffer_after_reading_witness :
  let st := stream.for_each five_records
              (buffer_alignment (alg := reference_algorithms) 2) producer_init in
  1 ≤ 2
  ∧ length (temp_store st) = length five_records / 2
  ∧ input_buffer st = drop (length five_records / 2 * 2) five_records
  ∧ length (input_buffer st) = length five_records mod 2
  ∧ length (input_buffer st) < 2.
Proof.
  intros st. assert (HB : 1 ≤ 2) by lia. split; [exact HB|].
  exact (buffer_after_reading (alg := reference_algorithms) 2 five_records HB).
Defined.

(** X15 after the first iteration of the merge of two one-record runs and
    an empty one. *)
Lemma output_flushed_in_thousands_witness :
  let gam_in := [ aligned 5 false 10 "a"; aligned 3 true 2 "b" ] in
  let st0 := merge_init (alg := reference_algorithms)
               (produce_runs (alg := reference_algorithms) 1 gam_in) in
  let st := default st0 (merge_step (alg := reference_algorithms) st0) in
  merge_reaches (alg := reference_algorithms) st0 st
  ∧ length (output_buffer st) = length (emitted st) mod 1000
  ∧ length (gam_out st) = length (emitted st) / 1000 * 1000.
Proof.
  intros gam_in st0 st.
  assert (Hreach : merge_reaches (alg := reference_algorithms) st0 st).
  { apply rtc_once. vm_compute. reflexivity. }
  split; [exact Hreach|].
  exact (output_flushed_in_thousands (alg := reference_algorithms) 1 gam_in st Hreach).
Defined.

(** X16 in the same state. *)
Lemma merge_frontier_valid_witness :
  let gam_in := [ aligned 5 false 10 "a"; aligned 3 true 2 "b" ] in
  let runs := produce_runs (alg := reference_algorithms) 1 gam_in in
  let st0 := merge_init (alg := reference_algorithms) runs in
  let st := default st0 (merge_step (alg := reference_algorithms) st0) in
  merge_reaches (alg := reference_algorithms) st0 st
  ∧ NoDup (temp_files st)
  ∧ (∀ p, p ∈ temp_files st → p < length (temp_cursors st))
  ∧ length (temp_cursors st) = length (temp_store runs)
  ∧ ∀ p run, temp_store runs !! p = Some run →
             cursor_at (temp_cursors st) p `suffix_of` run.
Proof.
  intros gam_in runs st0 st.
  assert (Hreach : merge_reaches (alg := reference_algorithms) st0 st).
  { apply rtc_once. vm_compute. reflexivity. }
  split; [exact Hreach|].
  exact (merge_frontier_valid (alg := reference_algorithms) 1 gam_in st Hreach).
Defined.

(** X17 in the same state. *)
Lemma emitted_prefix_of_output_witness :
  let gam_in := [ aligned 5 false 10 "a"; aligned 3 true 2 "b" ] in
  let st0 := merge_init (alg := reference_algorithms)
               (produce_runs (alg := reference_algorithms) 1 gam_in) in
  let st := default st0 (merge_step (alg := reference_algorithms) st0) in
  merge_reaches (alg := reference_algorithms) st0 st
  ∧ ∃ out, stream_sort (alg := reference_algorithms) 1 gam_in = Some out
           ∧ emitted st `prefix_of` out.
Proof.
  intros gam_in st0 st.
  assert (Hreach : merge_reaches (alg := reference_algorithms) st0 st).
  { apply rtc_once. vm_compute. reflexivity. }
  split; [exact Hreach|].
  exact (emitted_prefix_of_output (alg := reference_algorithms) 1 gam_in st Hreach).
Defined.

(** X19 at the first iteration of the same merge. *)
Lemma winner_record_is_least_witness :
  let gam_in := [ aligned 5 false 10 "a"; aligned 3 true 2 "b" ] in
  let st := merge_init (alg := reference_algorithms)
              (produce_runs (alg := reference_algorithms) 1 gam_in) in
  let st' := default st (merge_step (alg := reference_algorithms) st) in
  merge_reaches (alg := reference_algorithms) st st
  ∧ merge_step (alg := reference_algorithms) st = Some st'
  ∧ ∃ aln, emitted st' = emitted st ++ [aln]
           ∧ aln ∈ concat (temp_cursors st)
           ∧ (∀ r, r ∈ concat (temp_cursors st) → less_than_aln r aln = false)
           ∧ (∀ e, e ∈ emitted st → less_than_aln aln e = false).
Proof.
  intros gam_in st st'.
  assert (Hreach : merge_reaches (alg := reference_algorithms) st st)
    by apply rtc_refl.
  assert (Hstep : merge_step (alg := reference_algorithms) st = Some st')
    by (vm_compute; reflexivity).
  split; [exact Hreach|]. split; [exact Hstep|].
  exact (winner_record_is_least (alg := reference_algorithms) 1 gam_in st st'
           Hreach Hstep).
Defined.
